(** * import-html-entry: the fetch / cache / schedule / execute pipeline

    A shallow embedding of [src/index.js].  JavaScript values are kept as
    dynamically typed as the code needs them, the module-level caches and
    the real global object live in an explicit [world], and every function
    that has effects or may throw is a computation in the monad [M]. *)

From Stdlib Require Import String Ascii ZArith Lia.
From stdpp Require Import base option list gmap strings.

Open Scope string_scope.

(** ** Values *)

(** What a script, a hook or the facade itself may throw. *)
Inductive error :=
| TypeError (msg : string)
| SyntaxError (msg : string)
| Thrown (tag : nat).

(** The global objects code can be bound to: the real [window] or a
    caller-supplied sandbox, known by its identity. *)
Inductive gref :=
| Window
| Sandbox (id : nat).

(** JavaScript values as far as the loader and the promises it makes look
    at them. [VThenable] is an object with a callable [then] (a promise,
    for one), known by its identity; [VObj] is any other object, and
    [VEmptyRecord] the object the literal [{}] creates. *)
Inductive jsval :=
| VUndefined
| VNull
| VBool (b : bool)
| VNum (n : Z)
| VNaN
| VStr (s : string)
| VObj (id : nat)
| VThenable (id : nat)
| VEmptyRecord.

Definition nonempty (s : string) : bool :=
  match s with
  | EmptyString => false
  | String _ _ => true
  end.

(** ToBoolean: what [!v] and [v || d] test. *)
Definition truthy (v : jsval) : bool :=
  match v with
  | VUndefined | VNull | VNaN => false
  | VBool b => b
  | VNum n => negb (n =? 0)%Z
  | VStr s => nonempty s
  | VObj _ | VThenable _ | VEmptyRecord => true
  end.

(** [a || b] *)
Definition js_or (a b : jsval) : jsval := if truthy a then a else b.

(** A script descriptor in object form, [{ src, async, crossOrigin }].
    [obj_id] is the identity of the object, which is all [===] compares. *)
Record script_obj := ScriptObj {
  obj_id : nat;
  src : string;
  async : bool;
  crossOrigin : bool;
}.

(** An element of the [scripts] array: a string (inline markup or a
    location) or a descriptor object. *)
Inductive script :=
| SStr (s : string)
| SObj (o : script_obj).

Definition script_val (s : script) : jsval :=
  match s with
  | SStr s => VStr s
  | SObj o => VObj (obj_id o)
  end.

(** [scriptSrc === entry] *)
Definition strict_eq (s : script) (entry : jsval) : bool :=
  match s, entry with
  | SStr a, VStr b => String.eqb a b
  | SObj o, VObj id => Nat.eqb (obj_id o) id
  | _, _ => false
  end.

(** Template-literal interpolation of a script descriptor. *)
Definition script_text (s : script) : string :=
  match s with
  | SStr s => s
  | SObj _ => "[object Object]"
  end.

Definition pid := nat.

(** The handle [getExternalScripts] returns for an async script:
    [{ src, async: true, content }], [content] being a promise of the text. *)
Record handle := Handle {
  h_src : string;
  h_async : bool;
  h_content : pid;
}.

(** An element of [scriptsText]: the text of a script, or an async handle;
    [IUndefined] is what indexing past the end of the array gives. *)
Inductive item :=
| IText (t : string)
| IHandle (h : handle)
| IUndefined.

Definition item_text (i : item) : string :=
  match i with
  | IText t => t
  | IHandle _ => "[object Object]"
  | IUndefined => "undefined"
  end.

(** What the callback of [Array.prototype.map] returned for one descriptor,
    before [Promise.all] waits for it. *)
Inductive mapped :=
| MValue (v : item)
| MPromise (p : pid).

(** The state of a promise. [Following t]: the promise was resolved with
    the thenable [t]; it is not settled, its [resolve] and [reject] do
    nothing any more, and it waits for what [t] reports. *)
Inductive pstate (A : Type) :=
| Pending
| Fulfilled (v : A)
| Rejected (e : error)
| Following (t : nat).
Arguments Pending {A}.
Arguments Fulfilled {A} v.
Arguments Rejected {A} e.
Arguments Following {A} t.

(** A promise is settled when it is fulfilled or rejected. *)
Definition settled {A} (o : pstate A) : Prop :=
  match o with
  | Fulfilled _ | Rejected _ => True
  | Pending | Following _ => False
  end.

(** What the [resolve] function of a promise makes of its argument: a
    thenable is followed, any other value fulfils the promise. *)
Definition resolved_with (v : jsval) : pstate jsval :=
  match v with
  | VThenable t => Following t
  | _ => Fulfilled v
  end.

Definition fetcher := nat.

(** The second argument of a [fetch] call: absent, or [{}] /
    [{ credentials: 'include' }]. *)
Inductive fetch_opts :=
| NoOpts
| Opts (credentials_include : bool).

(** What an observer of one process sees, in order. [EIssue] is a ghost
    event: [schedule] hands index [i] to [exec]. *)
Inductive event :=
| EFetch (f : fetcher) (url : string) (o : fetch_opts)
| EIssue (i : nat)
| EEval (scriptSrc code : string) (global_proxy : option gref)
| EConsoleError (msg : string)
| EUncaught (e : error).

Inductive res (A : Type) :=
| Ok (a : A)
| Throw (e : error).
Arguments Ok {A} a.
Arguments Throw {A} e.

Definition LF : string := String "010"%char "".

(** ** The collaborators

    [./utils] and [./process-tpl] are imported by [index.js]; the host they
    run in (the real global object, the sandboxes, whatever a script can
    reach) is the abstract [heap]. *)
Class Host := {
  heap : Type;
  (** [evalCode(scriptSrc, code)], run while [window.proxy] has the given value *)
  evalCode : string -> string -> option gref -> heap -> heap * option error;
  (** [noteGlobalProps(global)] *)
  noteGlobalProps : gref -> heap -> heap;
  (** [getGlobalProp(global)]: a property name, or undefined *)
  getGlobalProp : gref -> heap -> option string;
  (** [global[name]] *)
  readProp : gref -> string -> heap -> jsval;
  (** [getInlineCode(match)] *)
  getInlineCode : string -> string;
  genLinkReplaceSymbol : string -> string;
  genScriptReplaceSymbol : string -> string;
}.

(** ** Options *)

(** The [opts] argument of [execScripts]; an absent field is [None]. *)
Record exec_opts `{Host} := ExecOpts {
  o_fetch : option fetcher;
  o_strictGlobal : option bool;
  o_success : option (jsval -> heap -> heap * option error);
  o_beforeExec : option (item -> script -> heap -> heap * res (option string));
  o_afterExec : option (item -> script -> heap -> heap * option error);
  o_scopedGlobalVariables : option (list string);
}.

Definition no_opts `{Host} : exec_opts :=
  ExecOpts _ None None None None None None.

(** [window.fetch.bind(window)] *)
Definition defaultFetch : fetcher := 0.

(** ** The world *)

(** [requestIdleCallback(() => fetchScript(src, fetchOpts).then(resolve, reject))]
    waiting for an idle period: the closure's variables and the promise
    [content] whose [resolve] / [reject] it holds. *)
Record idle_task := IdleTask {
  it_fetch : fetcher;
  it_src : string;
  it_opts : fetch_opts;
  it_content : pid;
}.

Record world `{Host} := World {
  w_heap : heap;
  (** the property [proxy] of the real global [window] *)
  w_proxy : option gref;
  (** [const styleCache = {}], [scriptCache], [embedHTMLCache], keyed by
      location *)
  styleCache : gmap string pid;
  scriptCache : gmap string pid;
  embedHTMLCache : gmap string pid;
  (** promises of text: the cached ones and the [content] of handles *)
  texts : gmap pid (pstate string);
  (** the promises [execScripts] returns *)
  executions : gmap pid (pstate jsval);
  next_pid : pid;
  (** callbacks handed to [requestIdleCallback], oldest first *)
  idle : list idle_task;
  (** [p.then(resolve, reject)] of an idle task that ran: [content] follows [p] *)
  follows : list (pid * pid);
  (** [content.then(text => geval(src, text)).catch(...)] not run yet *)
  reactions : list (pid * string);
  (** callbacks handed to [setTimeout] by [throwNonBlockingError] *)
  timers : list (error * string);
  trace : list event;
}.

Section Setters.
Context `{Host}.

Definition set_heap (h : heap) (w : world) : world :=
  World _ h (w_proxy w) (styleCache w) (scriptCache w) (embedHTMLCache w) (texts w) (executions w) (next_pid w) (idle w) (follows w) (reactions w) (timers w) (trace w).
Definition set_proxy (p : option gref) (w : world) : world :=
  World _ (w_heap w) p (styleCache w) (scriptCache w) (embedHTMLCache w) (texts w) (executions w) (next_pid w) (idle w) (follows w) (reactions w) (timers w) (trace w).
Definition set_styleCache (c : gmap string pid) (w : world) : world :=
  World _ (w_heap w) (w_proxy w) c (scriptCache w) (embedHTMLCache w) (texts w) (executions w) (next_pid w) (idle w) (follows w) (reactions w) (timers w) (trace w).
Definition set_scriptCache (c : gmap string pid) (w : world) : world :=
  World _ (w_heap w) (w_proxy w) (styleCache w) c (embedHTMLCache w) (texts w) (executions w) (next_pid w) (idle w) (follows w) (reactions w) (timers w) (trace w).
Definition set_embedHTMLCache (c : gmap string pid) (w : world) : world :=
  World _ (w_heap w) (w_proxy w) (styleCache w) (scriptCache w) c (texts w) (executions w) (next_pid w) (idle w) (follows w) (reactions w) (timers w) (trace w).
Definition set_texts (t : gmap pid (pstate string)) (w : world) : world :=
  World _ (w_heap w) (w_proxy w) (styleCache w) (scriptCache w) (embedHTMLCache w) t (executions w) (next_pid w) (idle w) (follows w) (reactions w) (timers w) (trace w).
Definition set_executions (x : gmap pid (pstate jsval)) (w : world) : world :=
  World _ (w_heap w) (w_proxy w) (styleCache w) (scriptCache w) (embedHTMLCache w) (texts w) x (next_pid w) (idle w) (follows w) (reactions w) (timers w) (trace w).
Definition set_next_pid (n : pid) (w : world) : world :=
  World _ (w_heap w) (w_proxy w) (styleCache w) (scriptCache w) (embedHTMLCache w) (texts w) (executions w) n (idle w) (follows w) (reactions w) (timers w) (trace w).
Definition set_idle (l : list idle_task) (w : world) : world :=
  World _ (w_heap w) (w_proxy w) (styleCache w) (scriptCache w) (embedHTMLCache w) (texts w) (executions w) (next_pid w) l (follows w) (reactions w) (timers w) (trace w).
Definition set_follows (l : list (pid * pid)) (w : world) : world :=
  World _ (w_heap w) (w_proxy w) (styleCache w) (scriptCache w) (embedHTMLCache w) (texts w) (executions w) (next_pid w) (idle w) l (reactions w) (timers w) (trace w).
Definition set_reactions (l : list (pid * string)) (w : world) : world :=
  World _ (w_heap w) (w_proxy w) (styleCache w) (scriptCache w) (embedHTMLCache w) (texts w) (executions w) (next_pid w) (idle w) (follows w) l (timers w) (trace w).
Definition set_timers (l : list (error * string)) (w : world) : world :=
  World _ (w_heap w) (w_proxy w) (styleCache w) (scriptCache w) (embedHTMLCache w) (texts w) (executions w) (next_pid w) (idle w) (follows w) (reactions w) l (trace w).
Definition set_trace (l : list event) (w : world) : world :=
  World _ (w_heap w) (w_proxy w) (styleCache w) (scriptCache w) (embedHTMLCache w) (texts w) (executions w) (next_pid w) (idle w) (follows w) (reactions w) (timers w) l.

(** The process right after [index.js] was loaded. *)
Definition boot (h : heap) : world :=
  World _ h None ∅ ∅ ∅ ∅ ∅ 1 [] [] [] [] [].
End Setters.

(** ** Computations that change the world and may throw *)

Definition M `{Host} (A : Type) : Type := world -> res A * world.

Section Monad.
Context `{Host}.

Definition ret {A} (a : A) : M A := fun w => (Ok a, w).
Definition throw {A} (e : error) : M A := fun w => (Throw e, w).
Definition bind {A B} (m : M A) (k : A -> M B) : M B :=
    fun w => match m w with
             | (Ok a, w') => k a w'
             | (Throw e, w') => (Throw e, w')
             end.
  (** [try { m } catch (e) { h(e) }] *)
Definition try_catch {A} (m : M A) (h : error -> M A) : M A :=
    fun w => match m w with
             | (Ok a, w') => (Ok a, w')
             | (Throw e, w') => h e w'
             end.
Definition modify (f : world -> world) : M unit := fun w => (Ok tt, f w).
Definition emit (e : event) : M unit :=
    modify (fun w => set_trace (trace w ++ [e]) w).
End Monad.

Notation "'let*' x ':=' m 'in' k" := (bind m (fun x => k))
  (at level 10, x name, m at level 100, k at level 200).
Notation "m '>>' k" := (bind m (fun _ => k))
  (at level 98, k at level 200, right associativity).

(** ** The sandbox code generator *)

(** [code.startsWith('<')] *)
Definition isInlineCode (code : string) : bool := String.prefix "<" code.

Definition sourceUrl (scriptSrc : string) : string :=
  if isInlineCode scriptSrc then "" else "//# sourceURL=" +:+ scriptSrc +:+ LF.

Definition scopedGlobalVariableDefinition (scopedGlobalVariables : list string) : string :=
  match scopedGlobalVariables with
  | [] => ""
  | _ => "const {" +:+ String.concat "," scopedGlobalVariables +:+ "}=this;"
  end.

Section CodeGenerator.
Context `{Host}.

(** [getExecutableScript(scriptSrc, scriptText, { proxy, strictGlobal,
    scopedGlobalVariables })] for a [scriptSrc] that is a string. *)
Definition getExecutableScript (scriptSrc scriptText : string) (proxy : gref)
    (strictGlobal : bool) (scopedGlobalVariables : list string) : M string :=
  let sourceUrl := sourceUrl scriptSrc in
  let scopedGlobalVariableDefinition :=
    scopedGlobalVariableDefinition scopedGlobalVariables in
  (* globalWindow.proxy = proxy *)
  modify (set_proxy (Some proxy)) >>
  ret (if strictGlobal then
         if nonempty scopedGlobalVariableDefinition then
           ";(function(){with(this){" +:+ scopedGlobalVariableDefinition +:+ scriptText
             +:+ LF +:+ sourceUrl +:+ "}}).bind(window.proxy)();"
         else
           ";(function(window, self, globalThis){with(window){;" +:+ scriptText
             +:+ LF +:+ sourceUrl
             +:+ "}}).bind(window.proxy)(window.proxy, window.proxy, window.proxy);"
       else
         ";(function(window, self, globalThis){;" +:+ scriptText
           +:+ LF +:+ sourceUrl
           +:+ "}).bind(window.proxy)(window.proxy, window.proxy, window.proxy);").

End CodeGenerator.

(** ** Resource cache and fetcher *)

(** The names every object inherits from [Object.prototype]. The caches
    are plain objects, so [cache[location]] finds the inherited member for
    a location that is one of these names, and the code never fetches or
    stores such a location. The cache maps of the [world] hold what the
    code stored; the properties that need a lookup to miss say that the
    location is none of these names. *)
Definition inherited (location : string) : bool :=
  bool_decide
    (location ∈ ["constructor"; "hasOwnProperty"; "isPrototypeOf";
                 "propertyIsEnumerable"; "toLocaleString"; "toString"; "valueOf";
                 "__proto__"; "__defineGetter__"; "__defineSetter__";
                 "__lookupGetter__"; "__lookupSetter__"]).

(** The location a script descriptor names. *)
Definition location (s : script) : string :=
  match s with
  | SStr s => s
  | SObj o => src o
  end.

Section Fetcher.
Context `{Host}.

(** A fresh pending promise of text. *)
Definition new_text_promise : M pid :=
  fun w =>
    let p := next_pid w in
    (Ok p, set_next_pid (S p) (set_texts (<[p := Pending]> (texts w)) w)).

(** [fetch(url, opts).then(response => response.text())], with or without
    the [.catch] that [fetchScript] chains: the call is observed and the
    promise of the text is pending until the network answers. The handler
    of [.catch] calls [errorCallback] and throws the error on, so the
    promise is rejected with the error of the request. *)
Definition fetch_text (fetch : fetcher) (url : string) (opts : fetch_opts) : M pid :=
  emit (EFetch fetch url opts) >> new_text_promise.

(** The callback [getExternalStyleSheets] maps over [styles]. *)
Definition styleSheet (fetch : fetcher) (styleLink : string) : M mapped :=
  if isInlineCode styleLink then
    ret (MValue (IText (getInlineCode styleLink)))
  else
    fun w =>
      match styleCache w !! styleLink with
      | Some p => (Ok (MPromise p), w)
      | None =>
          (let* p := fetch_text fetch styleLink NoOpts in
           modify (fun w => set_styleCache (<[styleLink := p]> (styleCache w)) w) >>
           ret (MPromise p)) w
      end.

Fixpoint mapM_ {A B} (f : A -> M B) (l : list A) : M (list B) :=
  match l with
  | [] => ret []
  | x :: l => let* y := f x in let* ys := mapM_ f l in ret (y :: ys)
  end.

(** [getExternalStyleSheets(styles, fetch)] up to the array [Promise.all]
    is given. *)
Definition getExternalStyleSheets (styles : list string) (fetch : fetcher)
  : M (list mapped) :=
  mapM_ (styleSheet fetch) styles.

(** The closure [fetchScript] of [getExternalScripts]. *)
Definition fetchScript (fetch : fetcher) (scriptUrl : string) (opts : fetch_opts)
  : M pid :=
  fun w =>
    match scriptCache w !! scriptUrl with
    | Some p => (Ok p, w)
    | None =>
        (let* p := fetch_text fetch scriptUrl opts in
         modify (fun w => set_scriptCache (<[scriptUrl := p]> (scriptCache w)) w) >>
         ret p) w
    end.

(** [requestIdleCallback(cb)] *)
Definition requestIdleCallback (t : idle_task) : M unit :=
  modify (fun w => set_idle (idle w ++ [t]) w).

(** The callback [getExternalScripts] maps over [scripts]. *)
Definition externalScript (fetch : fetcher) (script : script) : M mapped :=
  match script with
  | SStr script =>
      if isInlineCode script then
        ret (MValue (IText (getInlineCode script)))
      else
        let* p := fetchScript fetch script NoOpts in ret (MPromise p)
  | SObj o =>
      let fetchOpts := Opts (crossOrigin o) in
      if async o then
        let* content := new_text_promise in
        requestIdleCallback (IdleTask fetch (src o) fetchOpts content) >>
        ret (MValue (IHandle (Handle (src o) true content)))
      else
        let* p := fetchScript fetch (src o) fetchOpts in ret (MPromise p)
  end.

(** [getExternalScripts(scripts, fetch, errorCallback)] up to the array
    [Promise.all] is given. *)
Definition getExternalScripts (scripts : list script) (fetch : fetcher)
  : M (list mapped) :=
  mapM_ (externalScript fetch) scripts.

(** What [Promise.all] resolves to once nothing it waits for is pending. *)
Definition await (w : world) (m : mapped) : option item :=
  match m with
  | MValue v => Some v
  | MPromise p =>
      match texts w !! p with
      | Some (Fulfilled t) => Some (IText t)
      | _ => None
      end
  end.

Definition Promise_all (ms : list mapped) (w : world) : option (list item) :=
  mapM (await w) ms.

(** *** Later turns of the event loop *)

(** A promise settles once. *)
Definition settle_one (p : pid) (o : pstate string) (t : gmap pid (pstate string))
  : gmap pid (pstate string) :=
  match t !! p with
  | Some Pending => <[p := o]> t
  | _ => t
  end.

(** The network answers the request behind promise [p]; every [content]
    that follows [p] settles with it. *)
Definition settle (p : pid) (o : pstate string) (w : world) : world :=
  match texts w !! p with
  | Some Pending =>
      let followers := (filter (fun pc => pc.1 = p) (follows w)).*2 in
      set_texts (foldr (fun c t => settle_one c o t) (<[p := o]> (texts w)) followers) w
  | _ => w
  end.

(** The environment is idle and runs the oldest callback. *)
Definition run_idle : M unit :=
  fun w =>
    match idle w with
    | [] => (Ok tt, w)
    | t :: rest =>
        (let* p := fetchScript (it_fetch t) (it_src t) (it_opts t) in
         modify (fun w =>
           let w := set_follows (follows w ++ [(p, it_content t)]) w in
           match texts w !! p with
           | Some Pending | Some (Following _) | None => w
           | Some o => set_texts (settle_one (it_content t) o (texts w)) w
           end)) (set_idle rest w)
    end.

End Fetcher.

(** ** Script scheduler and executor *)

Section Executor.
Context `{Host}.

(** [throwNonBlockingError(error, msg)]: [setTimeout] only queues the
    callback. *)
Definition throwNonBlockingError (error : error) (msg : string) : M unit :=
  modify (fun w => set_timers (timers w ++ [(error, msg)]) w).

(** The oldest timer fires: [console.error(msg); throw error], outside any
    caller, so the exception reaches the host's error reporting. *)
Definition run_timer : M unit :=
  fun w =>
    match timers w with
    | [] => (Ok tt, w)
    | (error, msg) :: rest =>
        (emit (EConsoleError msg) >> emit (EUncaught error)) (set_timers rest w)
    end.

(** The [resolve] and [reject] functions of a promise [execScripts]
    returned. Only the first call of either counts: a promise that is
    settled, or that follows a thenable, stays as it is. *)
Definition resolve (p : pid) (v : jsval) : M unit :=
  modify (fun w =>
    match executions w !! p with
    | Some Pending => set_executions (<[p := resolved_with v]> (executions w)) w
    | _ => w
    end).

Definition reject (p : pid) (e : error) : M unit :=
  modify (fun w =>
    match executions w !! p with
    | Some Pending => set_executions (<[p := Rejected e]> (executions w)) w
    | _ => w
    end).

(** [new Promise(executor)]: the executor runs at once with the promise's
    [resolve]; what it throws rejects the promise. *)
Definition new_Promise (executor : (jsval -> M unit) -> M unit) : M pid :=
  fun w =>
    let p := next_pid w in
    let w := set_next_pid (S p) (set_executions (<[p := Pending]> (executions w)) w) in
    match executor (resolve p) w with
    | (Ok _, w) => (Ok p, w)
    | (Throw e, w) => (Ok p, (reject p e w).2)
    end.

(** [Promise.resolve()] *)
Definition Promise_resolve (v : jsval) : M pid :=
  fun w =>
    let p := next_pid w in
    (Ok p, set_next_pid (S p) (set_executions (<[p := resolved_with v]> (executions w)) w)).

(** The thenable that promise [p] follows reports an outcome, by calling
    the function it was given for it: [p] is fulfilled or rejected, or
    follows the next thenable if it was handed one. Later reports of the
    same thenable find [p] no longer following it. *)
Definition reported (p : pid) (o : pstate jsval) (w : world) : world :=
  match executions w !! p, o with
  | Some (Following _), Fulfilled v =>
      set_executions (<[p := resolved_with v]> (executions w)) w
  | Some (Following _), Rejected e =>
      set_executions (<[p := Rejected e]> (executions w)) w
  | _, _ => w
  end.

(** A callback that acts on the host only. *)
Definition host_call (f : heap -> heap * option error) : M unit :=
  fun w =>
    let (h, r) := f (w_heap w) in
    match r with
    | None => (Ok tt, set_heap h w)
    | Some e => (Throw e, set_heap h w)
    end.

(** A call of [execScripts] whose [.then] callback has not run: the
    arguments the callback closes over and the array [Promise.all] waits
    for. *)
Record pending_exec := PendingExec {
  pe_entry : jsval;
  pe_scripts : list script;
  pe_proxy : gref;
  pe_opts : exec_opts;
  pe_awaited : list mapped;
}.

Variable entry : jsval.
Variable scripts : list script.
Variable proxy : gref.
Variable opts : exec_opts.

(** The defaults of the destructured [opts]. *)
Definition fetch : fetcher := default defaultFetch (o_fetch opts).
Definition strictGlobal : bool := default false (o_strictGlobal opts).
Definition scopedGlobalVariables : list string :=
  default [] (o_scopedGlobalVariables opts).

Definition beforeExec (inlineScript : item) (scriptSrc : script) : M (option string) :=
  match o_beforeExec opts with
  | None => ret None
  | Some f =>
      fun w =>
        let (h, r) := f inlineScript scriptSrc (w_heap w) in (r, set_heap h w)
  end.

Definition afterExec (inlineScript : item) (scriptSrc : script) : M unit :=
  match o_afterExec opts with
  | None => ret tt
  | Some f => host_call (f inlineScript scriptSrc)
  end.

(** [evalCode(scriptSrc, code)] *)
Definition eval (scriptSrc code : string) : M unit :=
  fun w =>
    host_call (evalCode scriptSrc code (w_proxy w))
      (set_trace (trace w ++ [EEval scriptSrc code (w_proxy w)]) w).

Definition geval (scriptSrc : script) (inlineScript : item) : M unit :=
  let* hooked := beforeExec inlineScript scriptSrc in
  (* beforeExec(inlineScript, scriptSrc) || inlineScript *)
  let rawCode :=
    match hooked with
    | Some c => if nonempty c then IText c else inlineScript
    | None => inlineScript
    end in
  match scriptSrc with
  | SObj _ =>
      (* isInlineCode(scriptSrc), first statement of getExecutableScript *)
      throw (TypeError "code.startsWith is not a function")
  | SStr scriptSrc' =>
      let* code := getExecutableScript scriptSrc' (item_text rawCode) proxy
                     strictGlobal scopedGlobalVariables in
      eval scriptSrc' code >>
      afterExec inlineScript scriptSrc
  end.

(** [proxy[getGlobalProp(strictGlobal ? proxy : window)] || {}] *)
Definition exports : M jsval :=
  fun w =>
    let name := default "undefined"
                  (getGlobalProp (if strictGlobal then proxy else Window) (w_heap w)) in
    (Ok (js_or (readProp proxy name (w_heap w)) VEmptyRecord), w).

(** [exec(scriptSrc, inlineScript, resolve)]. The user-timing marks of a
    development build are left out: nothing the loader reads depends on
    them. *)
Definition exec (scriptSrc : script) (inlineScript : item)
    (resolve : jsval -> M unit) : M unit :=
  if strict_eq scriptSrc entry then
    modify (fun w =>
      set_heap (noteGlobalProps (if strictGlobal then proxy else Window) (w_heap w)) w) >>
    try_catch
      (geval scriptSrc inlineScript >>
       let* exports := exports in
       resolve exports)
      (fun e =>
         emit (EConsoleError
                 ("[import-html-entry]: error occurs while executing entry script "
                    +:+ script_text scriptSrc)) >>
         throw e)
  else
    match inlineScript with
    | IText _ =>
        try_catch
          (match scriptSrc with
           | SObj o =>
               if nonempty (src o) then geval (SStr (src o)) inlineScript
               else geval scriptSrc inlineScript
           | SStr _ => geval scriptSrc inlineScript
           end)
          (fun e =>
             throwNonBlockingError e
               ("[import-html-entry]: error occurs while executing normal script "
                  +:+ script_text scriptSrc))
    | IHandle h =>
        (* inlineScript.async && inlineScript?.content.then(...).catch(...) *)
        if h_async h then
          modify (fun w => set_reactions (reactions w ++ [(h_content h, h_src h)]) w)
        else ret tt
    | IUndefined =>
        throw (TypeError "Cannot read properties of undefined (reading 'async')")
    end.

Variable scriptsText : list item.

(** [schedule(i, resolvePromise)]; [fuel] bounds the depth of the
    recursion, and [length scripts - i] is enough of it. *)
Fixpoint schedule_loop (fuel i : nat) (resolvePromise : jsval -> M unit) : M unit :=
  match fuel with
  | 0 => ret tt
  | S fuel =>
      match scripts !! i with
      | None => ret tt
      | Some scriptSrc =>
          let inlineScript := default IUndefined (scriptsText !! i) in
          emit (EIssue i) >>
          exec scriptSrc inlineScript resolvePromise >>
          if negb (truthy entry) && Nat.eqb i (length scripts - 1) then
            resolvePromise VUndefined
          else
            schedule_loop fuel (i + 1) resolvePromise
      end
  end.

Definition schedule (i : nat) (resolvePromise : jsval -> M unit) : M unit :=
  schedule_loop (length scripts - i) i resolvePromise.

(** [success || resolve] *)
Definition resolvePromise (resolve : jsval -> M unit) : jsval -> M unit :=
  match o_success opts with
  | Some success => fun v => host_call (success v)
  | None => resolve
  end.

(** The callback [execScripts] gives to [.then]: it runs once
    [getExternalScripts] is fulfilled with [scriptsText], and the promise
    [execScripts] returned takes the state of the one created here. *)
Definition execScripts_then : M pid :=
  new_Promise (fun resolve => schedule 0 (resolvePromise resolve)).

(** [execScripts(entry, scripts, proxy, opts)] up to [.then]. *)
Definition execScripts : M pending_exec :=
  let* awaited := getExternalScripts scripts fetch in
  ret (PendingExec entry scripts proxy opts awaited).

(** A reaction [content.then(text => geval(src, text)).catch(e => ...)]
    whose [content] has settled runs. *)
Definition run_reaction (r : pid * string) : M unit :=
  fun w =>
    match texts w !! r.1 with
    | Some (Fulfilled downloadedScriptText) =>
        try_catch (geval (SStr r.2) (IText downloadedScriptText))
          (fun e =>
             throwNonBlockingError e
               ("[import-html-entry]: error occurs while executing async script "
                  +:+ r.2)) w
    | Some (Rejected e) =>
        throwNonBlockingError e
          ("[import-html-entry]: error occurs while executing async script " +:+ r.2) w
    | _ => modify (fun w => set_reactions (reactions w ++ [r]) w) w
    end.

(** A turn of the microtask queue: every registered reaction is looked at
    once, in order; those still waiting stay registered. *)
Definition run_reactions : M unit :=
  fun w =>
    foldl (fun st r => match st with
                       | (Ok _, w) => run_reaction r w
                       | st => st
                       end)
          (Ok tt, set_reactions [] w) (reactions w).

End Executor.

Section Resume.
Context `{Host}.

(** The [.then] callback of a pending call runs, if all it waits for is
    there. *)
Definition execScripts_resume (pe : pending_exec) : M (option pid) :=
  fun w =>
    match Promise_all (pe_awaited pe) w with
    | Some scriptsText =>
        (let* p := execScripts_then (pe_entry pe) (pe_scripts pe) (pe_proxy pe)
                     (pe_opts pe) scriptsText in
         ret (Some p)) w
    | None => (Ok None, w)
    end.

End Resume.

(** ** Public facade *)

(** A field of the config object given to [importEntry]: absent, an array,
    or anything else. *)
Inductive field (A : Type) :=
| Absent
| Arr (l : list A)
| Other (v : jsval).
Arguments Absent {A}.
Arguments Arr {A} l.
Arguments Other {A} v.

(** [Array.isArray(x)] *)
Definition isArray {A} (f : field A) : bool :=
  match f with
  | Arr _ => true
  | _ => false
  end.

(** [{ scripts?, styles?, html? }] *)
Record config := Config {
  c_scripts : field script;
  c_styles : field string;
  c_html : option string;
}.

(** The first argument of [importEntry]. *)
Inductive entry_arg :=
| EntryUrl (url : string)
| EntryConfig (c : config).

(** What a call of the handle's [execScripts] returned: a promise that is
    settled already, or one that waits for [getExternalScripts]. *)
Inductive started `{Host} :=
| Settled (p : pid)
| Waiting (pe : pending_exec).

(** What [importEntry] has done when it returns: the document request of
    [importHTML] is under way, or the styles of a config are being
    resolved for the template with its placeholders. *)
Inductive importing :=
| ImportingHTML (p : pid)
| Embedding (template : string) (styles : list string) (scripts : list script)
    (styleSheets : list mapped).

Section Facade.
Context `{Host}.

(** [{ fetch, strictGlobal, ...opts }] *)
Definition spread (fetch : fetcher) (strictGlobal : option bool) (opts : exec_opts)
  : exec_opts :=
  ExecOpts _
    (match o_fetch opts with Some f => Some f | None => Some fetch end)
    (match o_strictGlobal opts with Some b => Some b | None => strictGlobal end)
    (o_success opts) (o_beforeExec opts) (o_afterExec opts)
    (o_scopedGlobalVariables opts).

(** The [execScripts] of the handle [importHTML] resolves to; [entry] and
    [scripts] are what [processTpl] found in the document. An absent
    [proxy] makes the parameter default of [execScripts] apply. *)
Definition importHTML_execScripts (entry : jsval) (scripts : list script)
    (fetch : fetcher) (proxy : option gref) (strictGlobal : option bool)
    (opts : exec_opts) : M started :=
  match scripts with
  | [] => let* p := Promise_resolve VUndefined in ret (Settled p)
  | _ =>
      let* pe := execScripts entry scripts (default Window proxy)
                   (spread fetch strictGlobal opts) in
      ret (Waiting pe)
  end.

(** [scripts[scripts.length - 1]] *)
Definition last_script (scripts : list script) : jsval :=
  match scripts !! (length scripts - 1) with
  | Some s => script_val s
  | None => VUndefined
  end.

(** The [execScripts] of the handle [importEntry] resolves to for a
    config. *)
Definition importEntry_execScripts (scripts : list script)
    (fetch : fetcher) (proxy : option gref) (strictGlobal : option bool)
    (opts : exec_opts) : M started :=
  match scripts with
  | [] => let* p := Promise_resolve VUndefined in ret (Settled p)
  | _ =>
      let* pe := execScripts (last_script scripts) scripts (default Window proxy)
                   (spread fetch strictGlobal opts) in
      ret (Waiting pe)
  end.

(** [getEmbedHTML(template, styles, { fetch })] up to [.then]; the
    callback, which puts the style sheets in place of the placeholders, runs
    in a later turn. *)
Definition getEmbedHTML (template : string) (styles : list string) (fetch : fetcher)
  : M (list mapped) :=
  getExternalStyleSheets styles fetch.

(** [importHTML(url, { fetch, ... })], as [importEntry] calls it, up to the
    first [.then]: the cached promise of the handle, or the request for the
    document. Reading and parsing the document is the work of [./utils]
    and [./process-tpl]. *)
Definition importHTML (url : string) (fetch : fetcher) : M pid :=
  fun w =>
    match embedHTMLCache w !! url with
    | Some p => (Ok p, w)
    | None =>
        let p := next_pid w in
        (emit (EFetch fetch url NoOpts) >>
         modify (fun w =>
           set_next_pid (S p) (set_embedHTMLCache (<[url := p]> (embedHTMLCache w)) w)) >>
         ret p) w
    end.

(** [importEntry(entry, opts)] up to the promise it returns. [fetch] and
    [getTemplate] are the fields of [opts], absent ones [None]. *)
Definition importEntry (entry : entry_arg) (fetch : option fetcher)
    (getTemplate : option (string -> string)) : M importing :=
  let fetch := default defaultFetch fetch in
  let getTemplate := default (fun tpl => tpl) getTemplate in
  match entry with
  | EntryUrl url => let* p := importHTML url fetch in ret (ImportingHTML p)
  | EntryConfig c =>
      if isArray (c_scripts c) || isArray (c_styles c) then
        (* const { scripts = [], styles = [], html = '' } = entry *)
        let html := default "" (c_html c) in
        match c_styles c, c_scripts c with
        | Other _, _ => throw (TypeError "styles.reduceRight is not a function")
        | _, Other _ => throw (TypeError "scripts.reduce is not a function")
        | styles, scripts =>
            let styles := match styles with Arr l => l | _ => [] end in
            let scripts := match scripts with Arr l => l | _ => [] end in
            let getHTMLWithStylePlaceholder tpl :=
              foldr (fun styleSrc html => genLinkReplaceSymbol styleSrc +:+ html)
                    tpl styles in
            let getHTMLWithScriptPlaceholder tpl :=
              foldl (fun html scriptSrc =>
                       html +:+ genScriptReplaceSymbol (script_text scriptSrc))
                    tpl scripts in
            let template :=
              getTemplate (getHTMLWithScriptPlaceholder (getHTMLWithStylePlaceholder html)) in
            let* styleSheets := getEmbedHTML template styles fetch in
            ret (Embedding template styles scripts styleSheets)
        end
      else throw (SyntaxError "entry scripts or styles should be array!")
  end.

End Facade.

(** ** Runs of the resolution operations

    What one process does to the caches: callers ask for styles or for
    scripts, with the fetch capability they supply; the environment gets
    idle; the network settles a request. *)
Inductive op :=
| OStyles (styles : list string) (f : fetcher)
| OScripts (scripts : list script) (f : fetcher)
| OIdle
| OSettle (p : pid) (o : pstate string).

Definition is_style_op (o : op) : bool :=
  match o with
  | OStyles _ _ | OSettle _ _ => true
  | _ => false
  end.

Definition is_script_op (o : op) : bool :=
  match o with
  | OStyles _ _ => false
  | _ => true
  end.

Definition is_fetch_of (L : string) (e : event) : bool :=
  match e with
  | EFetch _ url _ => String.eqb url L
  | _ => false
  end.

(** How many times a fetch capability was invoked for location [L]. *)
Definition fetch_count (L : string) (t : list event) : nat :=
  length (List.filter (is_fetch_of L) t).
Arguments fetch_count : simpl never.

Definition cached (c : gmap string pid) (L : string) : nat :=
  match c !! L with
  | Some _ => 1
  | None => 0
  end.
Arguments cached : simpl never.

Section Runs.
Context `{Host}.

Definition step (w : world) (o : op) : world :=
  match o with
  | OStyles styles f => (getExternalStyleSheets styles f w).2
  | OScripts scripts f => (getExternalScripts scripts f w).2
  | OIdle => (run_idle w).2
  | OSettle p o => settle p o w
  end.

Definition run (ops : list op) (w : world) : world := foldl step w ops.

(** Every invocation of a fetch capability for [L] left its promise in one
    of the two caches, and each cache holds one promise for [L] at most. *)
Definition counted (w : world) : Prop :=
  forall L, fetch_count L (trace w) = cached (styleCache w) L + cached (scriptCache w) L.

Definition scriptCache_empty (w : world) : Prop := scriptCache w = ∅.
Definition styleCache_empty (w : world) : Prop := styleCache w = ∅.

End Runs.

(** ** Vocabulary for the properties *)

Section Vocabulary.
Context `{Host}.

(** What evaluating a script cannot reach: the caches, the promises and the
    queues of the loader. *)
Definition frame (w : world) :=
  (styleCache w, scriptCache w, embedHTMLCache w, texts w, executions w,
   next_pid w, idle w, follows w, reactions w, timers w).

(** An event that is neither the issue of a script nor a fetch. *)
Definition quiet (e : event) : Prop :=
  match e with
  | EIssue _ | EFetch _ _ _ => False
  | _ => True
  end.

(** [w'] comes after [w] and only quiet events happened in between. *)
Definition quietly (w w' : world) : Prop :=
  exists t, trace w' = (trace w ++ t)%list /\ Forall quiet t.

(** Evaluation: the loader's own state is untouched. *)
Definition evaluates (w w' : world) : Prop :=
  frame w' = frame w /\ quietly w w'.

(** The promises are untouched. *)
Definition keeps_promises (w w' : world) : Prop :=
  executions w' = executions w /\ texts w' = texts w /\ quietly w w'.

(** Promise [p], once settled, keeps its state. *)
Definition keeps_settled (p : pid) (w w' : world) : Prop :=
  (executions w !! p <> Some Pending -> executions w' !! p = executions w !! p)
  /\ quietly w w'.

Definition stays_settled (p : pid) (w w' : world) : Prop :=
  executions w !! p <> Some Pending -> executions w' !! p = executions w !! p.

(** [w'] comes after [w] and no index from [n] on was issued in between. *)
Definition issued_below (n : nat) (w w' : world) : Prop :=
  exists t, trace w' = (trace w ++ t)%list /\ forall j, EIssue j ∈ t -> j < n.

(** [w'] comes after [w]. *)
Definition extends (w w' : world) : Prop :=
  exists t, trace w' = (trace w ++ t)%list.

(** Every world a computation ends in is related to the one it started in. *)
Definition steps (R : world -> world -> Prop) {A} (m : M A) : Prop :=
  forall w, R w (m w).2.

(** The world the executor of [new Promise] starts in: the promise, named
    [next_pid w], exists and is pending. *)
Definition pending_promise (w : world) : world :=
  set_next_pid (S (next_pid w))
    (set_executions (<[next_pid w := Pending]> (executions w)) w).

(** [schedule] has handed index [i] to [exec]. *)
Definition issued (i : nat) (w : world) : world :=
  set_trace (trace w ++ [EIssue i]) w.

(** What [exec] gives [geval] as the source of a script that is not the
    entry and has its text: [scriptSrc.src] if there is one, else
    [scriptSrc]. *)
Definition geval_src (scriptSrc : script) : script :=
  match scriptSrc with
  | SObj o => if nonempty (src o) then SStr (src o) else scriptSrc
  | SStr _ => scriptSrc
  end.

(** [throwNonBlockingError(e, msg)] has queued its callback. *)
Definition deferred (e : error) (msg : string) (w : world) : world :=
  set_timers (timers w ++ [(e, msg)]) w.

Definition normal_script_msg (scriptSrc : script) : string :=
  "[import-html-entry]: error occurs while executing normal script "
    +:+ script_text scriptSrc.

Definition async_script_msg (src : string) : string :=
  "[import-html-entry]: error occurs while executing async script " +:+ src.

Variable entry : jsval.
Variable scripts : list script.
Variable proxy : gref.
Variable opts : exec_opts.
Variable scriptsText : list item.
Variable resolvePromise : jsval -> M unit.

(** [exec] has called [noteGlobalProps] for the entry. *)
Definition noted (w : world) : world :=
  set_heap (noteGlobalProps (if strictGlobal opts then proxy else Window) (w_heap w)) w.


(** [schedule(k, resolvePromise)] called in world [w] comes to call
    [schedule(i, resolvePromise)] in world [wi]. *)
Inductive reaches : nat -> world -> nat -> world -> Prop :=
| reaches_here k w : reaches k w k w
| reaches_next k w scriptSrc w' i wi :
    scripts !! k = Some scriptSrc ->
    (emit (EIssue k) >>
     exec entry proxy opts scriptSrc (default IUndefined (scriptsText !! k))
       resolvePromise) w = (Ok tt, w') ->
    negb (truthy entry) && Nat.eqb k (length scripts - 1) = false ->
    reaches (k + 1) w' i wi ->
    reaches k w i wi.

End Vocabulary.

(** ** Template assembler *)

(** The replacement text [String.prototype.replace] computes for a pattern
    that is a string, so that there are no captures: [$$] stands for a
    dollar, [$&] for the matched text, [$`] and [$'] for what comes before
    and after it; any other dollar stands for itself. *)
Fixpoint GetSubstitution (matched before after replacement : string) : string :=
  match replacement with
  | EmptyString => EmptyString
  | String c tail =>
      if Ascii.eqb c "$" then
        match tail with
        | String d rest =>
            if Ascii.eqb d "$" then
              String "$" (GetSubstitution matched before after rest)
            else if Ascii.eqb d "&" then
              matched +:+ GetSubstitution matched before after rest
            else if Ascii.eqb d "`" then
              before +:+ GetSubstitution matched before after rest
            else if Ascii.eqb d "'" then
              after +:+ GetSubstitution matched before after rest
            else String c (GetSubstitution matched before after tail)
        | EmptyString => String c EmptyString
        end
      else String c (GetSubstitution matched before after tail)
  end.

(** [html.replace(pattern, replacement)] with a string for pattern: the
    first occurrence is replaced, and without one [html] is returned. *)
Definition js_replace (html pattern replacement : string) : string :=
  match String.index 0 pattern html with
  | None => html
  | Some pos =>
      let before := String.substring 0 pos html in
      let after :=
        String.substring (pos + String.length pattern)
          (String.length html - (pos + String.length pattern)) html in
      before +:+ GetSubstitution pattern before after replacement +:+ after
  end.

Section Assembler.
Context `{Host}.

(** What takes the place of the placeholder of [styleSrc]. *)
Definition style_block (styleSrc styleSheet : string) : string :=
  if isInlineCode styleSrc then styleSrc
  else "<style>/* " +:+ styleSrc +:+ " */" +:+ styleSheet +:+ "</style>".

(** [styles.reduce((html, styleSrc, i) => ..., embedHTML)] from index [i]
    on. *)
Fixpoint embed_from (i : nat) (styles : list string) (styleSheets : list string)
    (html : string) : string :=
  match styles with
  | [] => html
  | styleSrc :: styles =>
      embed_from (S i) styles styleSheets
        (js_replace html (genLinkReplaceSymbol styleSrc)
           (style_block styleSrc (default "undefined" (styleSheets !! i))))
  end.

(** The callback [getEmbedHTML] gives to [.then]. *)
Definition getEmbedHTML_then (template : string) (styles : list string)
    (styleSheets : list string) : string :=
  embed_from 0 styles styleSheets template.

(** The blocks the callback writes for [styles], from index [i] on. *)
Fixpoint style_blocks (i : nat) (styles styleSheets : list string) : list string :=
  match styles with
  | [] => []
  | styleSrc :: styles =>
      style_block styleSrc (default "undefined" (styleSheets !! i))
        :: style_blocks (S i) styles styleSheets
  end.

(** The strings of a list, one after the other. *)
Definition join (l : list string) : string := foldr String.append "" l.

(** In a template that begins with the placeholders of [styles], as
    [importEntry] makes it: when its turn comes, after the blocks [done]
    written so far, each placeholder is found first where it was put (and
    not earlier, inside a style sheet). *)
Fixpoint placed (done : string) (i : nat) (styles styleSheets : list string)
    (tail : string) : bool :=
  match styles with
  | [] => true
  | styleSrc :: styles =>
      bool_decide
        (String.index 0 (genLinkReplaceSymbol styleSrc)
           (done +:+ genLinkReplaceSymbol styleSrc
              +:+ join (map genLinkReplaceSymbol styles) +:+ tail)
         = Some (String.length done))
      && placed (done +:+ style_block styleSrc (default "undefined" (styleSheets !! i)))
           (S i) styles styleSheets tail
  end.

End Assembler.

(** The replacement text has none of the four dollar patterns. *)
Fixpoint plain (replacement : string) : bool :=
  match replacement with
  | EmptyString => true
  | String c tail =>
      match tail with
      | String d _ =>
          negb (Ascii.eqb c "$"
                && (Ascii.eqb d "$" || Ascii.eqb d "&" || Ascii.eqb d "`" || Ascii.eqb d "'"))
          && plain tail
      | EmptyString => true
      end
  end.

(** ** The life of a process *)

Definition is_fetch (e : event) : bool :=
  match e with
  | EFetch _ _ _ => true
  | _ => false
  end.

(** The indices issued in a stretch of the trace, in order. *)
Definition issues (t : list event) : list nat :=
  omap (fun e => match e with EIssue i => Some i | _ => None end) t.

Section Process.
Context `{Host}.

(** Everything a caller or the environment can make the loader do. *)
Inductive action :=
| AOp (o : op)
| AImportEntry (entry : entry_arg) (f : option fetcher)
    (getTemplate : option (string -> string))
| AHandleExec (entry : jsval) (scripts : list script) (f : fetcher)
    (proxy : option gref) (strictGlobal : option bool) (opts : exec_opts)
| AConfigExec (scripts : list script) (f : fetcher)
    (proxy : option gref) (strictGlobal : option bool) (opts : exec_opts)
| AExecScripts (entry : jsval) (scripts : list script) (proxy : gref) (opts : exec_opts)
| AThen (entry : jsval) (scripts : list script) (proxy : gref) (opts : exec_opts)
    (scriptsText : list item)
| AReactions (proxy : gref) (opts : exec_opts)
| ATimer
| AReported (p : pid) (o : pstate jsval).

Definition act (w : world) (a : action) : world :=
  match a with
  | AOp o => step w o
  | AImportEntry entry f getTemplate => (importEntry entry f getTemplate w).2
  | AHandleExec entry scripts f proxy strictGlobal opts =>
      (importHTML_execScripts entry scripts f proxy strictGlobal opts w).2
  | AConfigExec scripts f proxy strictGlobal opts =>
      (importEntry_execScripts scripts f proxy strictGlobal opts w).2
  | AExecScripts entry scripts proxy opts => (execScripts entry scripts proxy opts w).2
  | AThen entry scripts proxy opts scriptsText =>
      (execScripts_then entry scripts proxy opts scriptsText w).2
  | AReactions proxy opts => (run_reactions proxy opts w).2
  | ATimer => (run_timer w).2
  | AReported p o => reported p o w
  end.

Definition process (l : list action) (w : world) : world := foldl act w l.

(** What the executor leaves alone: the caches, the promises of text and
    the idle queue. *)
Definition loader_state (w : world) :=
  (styleCache w, scriptCache w, embedHTMLCache w, texts w, next_pid w, idle w,
   follows w).

(** [w'] comes after [w] and no fetch was invoked in between. *)
Definition fetchless (w w' : world) : Prop :=
  exists t, trace w' = (trace w ++ t)%list /\ Forall (fun e => is_fetch e = false) t.

(** Scripts ran, and no execution was settled. *)
Definition runs (w w' : world) : Prop :=
  loader_state w' = loader_state w /\ executions w' = executions w /\ fetchless w w'.

(** Scripts ran for the execution [p]. *)
Definition executes (p : pid) (w w' : world) : Prop :=
  loader_state w' = loader_state w
  /\ (forall q, q <> p -> executions w' !! q = executions w !! q)
  /\ fetchless w w'.

(** No cache entry is dropped or changed. *)
Definition caches_grow (w w' : world) : Prop :=
  styleCache w ⊆ styleCache w' /\ scriptCache w ⊆ scriptCache w'
  /\ embedHTMLCache w ⊆ embedHTMLCache w'.

(** Every fetch for [L] left its promise in one of the three caches. *)
Definition counted3 (w : world) : Prop :=
  forall L, fetch_count L (trace w)
            = cached (styleCache w) L + cached (scriptCache w) L
              + cached (embedHTMLCache w) L.

(** [m] is what [getExternalStyleSheets] answers for [styleLink] when the
    caches are those of [w]. *)
Definition style_answer (w : world) (styleLink : string) (m : mapped) : Prop :=
  if isInlineCode styleLink then m = MValue (IText (getInlineCode styleLink))
  else exists p, m = MPromise p /\ styleCache w !! styleLink = Some p.

(** [m] is what [getExternalScripts], called with [f], has answered for
    [s], seen from world [w]: the inline code, the cached promise of the
    location, or for an async descriptor a handle whose [content] is
    pending and whose fetch waits in the idle queue. *)
Definition script_answer (f : fetcher) (w : world) (s : script) (m : mapped) : Prop :=
  match s with
  | SStr s =>
      if isInlineCode s then m = MValue (IText (getInlineCode s))
      else exists p, m = MPromise p /\ scriptCache w !! s = Some p
  | SObj o =>
      if async o then
        exists c, m = MValue (IHandle (Handle (src o) true c))
                  /\ c < next_pid w
                  /\ texts w !! c = Some Pending
                  /\ IdleTask f (src o) (Opts (crossOrigin o)) c ∈ idle w
      else exists p, m = MPromise p /\ scriptCache w !! src o = Some p
  end.

(** Resolution went on from [w] to [w']: caches and the idle queue grew,
    promises of text were only added. *)
Definition resolving (w w' : world) : Prop :=
  caches_grow w w'
  /\ next_pid w <= next_pid w'
  /\ (forall q, q < next_pid w -> texts w' !! q = texts w !! q)
  /\ (exists more, idle w' = (idle w ++ more)%list).

(** The answer of a second call is that of the first, but for the handles
    of async descriptors, which are made anew. *)
Definition same_answer (m1 m2 : mapped) : Prop :=
  match m1 with
  | MPromise _ | MValue (IText _) => m2 = m1
  | MValue (IHandle h1) =>
      exists h2, m2 = MValue (IHandle h2) /\ h_src h2 = h_src h1 /\ h_async h2 = h_async h1
  | MValue IUndefined => m2 = m1
  end.

(** Promise [q] is not waiting for a thenable to report. *)
Definition on_its_own (w : world) (q : nat) : Prop :=
  forall t, executions w !! q <> Some (Following t).

(** What every action respects. The executions made so far keep their
    state, but for one that follows a thenable. *)
Definition evolves (w w' : world) : Prop :=
  caches_grow w w'
  /\ next_pid w <= next_pid w'
  /\ (forall q, q < next_pid w -> on_its_own w q ->
        executions w' !! q = executions w !! q)
  /\ (counted3 w -> counted3 w').

End Process.

(** ** A host to run the loader on

    Its heap is the list of global properties scripts have defined, oldest
    first. A script is known by its location: [bad.js] throws, [zero.js]
    defines [answer = 0], [app.js] defines [app] as an object, [later.js]
    defines [later] as a promise, and any other script defines nothing. *)

Definition demo_evalCode (scriptSrc code : string) (global_proxy : option gref)
    (h : list (string * jsval)) : list (string * jsval) * option error :=
  if String.eqb scriptSrc "http://x/bad.js" then (h, Some (Thrown 1))
  else if String.eqb scriptSrc "http://x/zero.js" then ((h ++ [("answer", VNum 0)])%list, None)
  else if String.eqb scriptSrc "http://x/app.js" then ((h ++ [("app", VObj 42)])%list, None)
  else if String.eqb scriptSrc "http://x/later.js" then
    ((h ++ [("later", VThenable 5)])%list, None)
  else (h, None).

Definition demo_readProp (g : gref) (name : string) (h : list (string * jsval)) : jsval :=
  default VUndefined
    (snd <$> last (filter (fun kv => String.eqb kv.1 name = true) h)).

#[export] Instance demo_host : Host := {|
  heap := list (string * jsval);
  evalCode := demo_evalCode;
  noteGlobalProps := fun _ h => h;
  getGlobalProp := fun _ h => fst <$> last h;
  readProp := demo_readProp;
  getInlineCode := fun s => s;
  genLinkReplaceSymbol := fun s => "<!-- link " +:+ s +:+ " -->";
  genScriptReplaceSymbol := fun s => "<!-- script " +:+ s +:+ " -->";
|}.

Definition demo_world : world := boot (H := demo_host) [].

(** *** Runs on that host *)

(** Three scripts, the second of which throws. *)
Definition abc_scripts : list script :=
  [SStr "http://x/a.js"; SStr "http://x/bad.js"; SStr "http://x/c.js"].
Definition abc_texts : list item := [IText "a()"; IText "b()"; IText "c()"].

(** The executor has started and index 0 has run. *)
Definition abc_after_a (entry : jsval) : world :=
  ((emit (EIssue 0) >>
    exec entry (Sandbox 1) no_opts (SStr "http://x/a.js") (IText "a()")
      (resolvePromise no_opts (resolve 1))) (pending_promise demo_world)).2.

(** [bad.js] has been evaluated at index 1, as the entry. *)
Definition abc_after_bad_entry : world :=
  (geval (Sandbox 1) no_opts (SStr "http://x/bad.js") (IText "b()")
     (noted (Sandbox 1) no_opts (issued 1 (abc_after_a (VStr "http://x/bad.js"))))).2.

(** [bad.js] has been evaluated at index 1, not being the entry. *)
Definition abc_after_bad_other : world :=
  (geval (Sandbox 1) no_opts (SStr "http://x/bad.js") (IText "b()")
     (issued 1 (abc_after_a VUndefined))).2.

(** A library and the application that is the entry. *)
Definition app_scripts : list script := [SStr "http://x/a.js"; SStr "http://x/app.js"].
Definition app_texts : list item := [IText "a()"; IText "app = {}"].



(** An entry whose export is a promise. *)
Definition later_run : world :=
  (execScripts_then (VStr "http://x/later.js") [SStr "http://x/later.js"] (Sandbox 1)
     no_opts [IText "later = load()"] demo_world).2.

(** An async script followed by the entry. *)
Definition lazy_script : script_obj := ScriptObj 7 "http://x/lazy.js" true false.
Definition lazy_scripts : list script := [SObj lazy_script; SStr "http://x/app.js"].
Definition lazy_texts : list item :=
  [IHandle (Handle "http://x/lazy.js" true 1); IText "app = {}"].

(** The handle of [lazy.js] has been made and the executor has started. *)
Definition lazy_world : world :=
  pending_promise (externalScript defaultFetch (SObj lazy_script) demo_world).2.

(** An inline style and a remote one, with the texts they resolve to. *)
Definition two_styles : list string := ["<style>.a{}</style>"; "http://x/y.css"].
Definition two_sheets : list string := [".a{}"; "b{color:red}"].

(** Inline code, a remote script and an async one. *)
Definition mixed_scripts : list script :=
  [SStr "<script>a()</script>"; SStr "http://x/a.js"; SObj lazy_script].

(** Options with a [success] callback that does nothing. *)
Definition success_opts : exec_opts :=
  ExecOpts _ None None (Some (fun _ h => (h, None))) None None None.

(** * Properties *)

(** ** Sandbox code generator *)

Lemma isInlineCode_spec (code : string) :
  isInlineCode code = true <-> exists rest, code = "<" +:+ rest.
Proof.
  unfold isInlineCode. destruct code as [|c rest].
  - split; [discriminate | intros [r Hr]; discriminate].
  - cbn [String.prefix].
    destruct (Ascii.ascii_dec "<"%char c) as [<-|Hne].
    + split; [intros _; exists rest; reflexivity | intros _].
      destruct rest; reflexivity.
    + split; [discriminate | intros [r Hr]]. injection Hr as Hc _. congruence.
Qed.

Lemma sourceUrl_empty (scriptSrc : string) :
  sourceUrl scriptSrc = "" <-> isInlineCode scriptSrc = true.
Proof.
  unfold sourceUrl. destruct (isInlineCode scriptSrc); simpl.
  - split; reflexivity.
  - split; discriminate.
Qed.

(** C7. In non-strict-global mode the generated code is the script text
    wrapped in a function whose only parameters are [window], [self] and
    [globalThis], called with [window.proxy] (which the generator has just
    set to the sandbox) for each of them; no [with] block and no scoped
    variable declaration is generated, whatever [scopedGlobalVariables]
    is. The text is followed by the [sourceURL] annotation naming
    [scriptSrc], and the annotation is left out exactly when [scriptSrc]
    is inline code, that is, starts with [<]. *)
Theorem getExecutableScript_non_strict `{Host} (scriptSrc scriptText : string)
    (proxy : gref) (scopedGlobalVariables : list string) (w : world) :
  getExecutableScript scriptSrc scriptText proxy false scopedGlobalVariables w
  = (Ok (";(function(window, self, globalThis){;" +:+ scriptText +:+ LF
           +:+ sourceUrl scriptSrc
           +:+ "}).bind(window.proxy)(window.proxy, window.proxy, window.proxy);"),
     set_proxy (Some proxy) w)
  /\ sourceUrl scriptSrc
     = (if isInlineCode scriptSrc then "" else "//# sourceURL=" +:+ scriptSrc +:+ LF)
  /\ (sourceUrl scriptSrc = "" <-> isInlineCode scriptSrc = true)
  /\ (isInlineCode scriptSrc = true <-> exists rest, scriptSrc = "<" +:+ rest).
Proof.
  split; [reflexivity|].
  split; [reflexivity|].
  split; [apply sourceUrl_empty | apply isInlineCode_spec].
Qed.

Example getExecutableScript_remote :
  (getExecutableScript "http://x/a.js" "var a = 1" (Sandbox 1) false ["document"]
     demo_world).1
  = Ok (";(function(window, self, globalThis){;var a = 1" +:+ LF
          +:+ "//# sourceURL=http://x/a.js" +:+ LF
          +:+ "}).bind(window.proxy)(window.proxy, window.proxy, window.proxy);").
Proof. reflexivity. Qed.

Example getExecutableScript_inline :
  (getExecutableScript "<script>var a = 1</script>" "var a = 1" (Sandbox 1) false []
     demo_world).1
  = Ok (";(function(window, self, globalThis){;var a = 1" +:+ LF
          +:+ "}).bind(window.proxy)(window.proxy, window.proxy, window.proxy);").
Proof. reflexivity. Qed.

Example getExecutableScript_strict_scoped :
  (getExecutableScript "http://x/a.js" "var a = 1" (Sandbox 1) true ["document"; "Array"]
     demo_world).1
  = Ok (";(function(){with(this){const {document,Array}=this;var a = 1" +:+ LF
          +:+ "//# sourceURL=http://x/a.js" +:+ LF
          +:+ "}}).bind(window.proxy)();").
Proof. reflexivity. Qed.

(** ** The write to the real global object *)

Lemma getExecutableScript_proxy `{Host} (scriptSrc scriptText : string)
    (proxy : gref) (strictGlobal : bool) (vars : list string) (w : world) :
  exists code,
    getExecutableScript scriptSrc scriptText proxy strictGlobal vars w
    = (Ok code, set_proxy (Some proxy) w).
Proof. unfold getExecutableScript, bind, modify, ret. eauto. Qed.

(** What [geval] leaves in the trace: nothing, or one evaluation, made
    while [window.proxy] was the sandbox of this call. *)
Lemma geval_trace `{Host} (proxy : gref) (opts : exec_opts)
    (scriptSrc : script) (inlineScript : item) (w : world) :
  let w' := (geval proxy opts scriptSrc inlineScript w).2 in
  trace w' = trace w
  \/ exists src code, scriptSrc = SStr src /\ w_proxy w' = Some proxy
       /\ trace w' = (trace w ++ [EEval src code (Some proxy)])%list.
Proof.
  unfold geval, bind, beforeExec.
  destruct (o_beforeExec opts) as [f|]; unfold ret.
  - destruct (f inlineScript scriptSrc (w_heap w)) as [h [hooked|e]]; [|left; reflexivity].
    destruct scriptSrc as [s|o]; [|left; reflexivity].
    destruct (getExecutableScript_proxy s
      (item_text match hooked with
                 | Some c => if nonempty c then IText c else inlineScript
                 | None => inlineScript end)
      proxy (strictGlobal opts) (scopedGlobalVariables opts) (set_heap h w))
      as [code ->].
    unfold eval, host_call, afterExec. cbn.
    destruct (evalCode s code (Some proxy) h) as [h' [e|]]; cbn.
    + right. eauto.
    + destruct (o_afterExec opts) as [g|]; unfold ret, host_call; cbn.
      * destruct (g inlineScript (SStr s) h') as [h'' [e|]]; cbn; right; eauto.
      * right; eauto.
  - destruct scriptSrc as [s|o]; [|left; reflexivity].
    destruct (getExecutableScript_proxy s (item_text inlineScript)
      proxy (strictGlobal opts) (scopedGlobalVariables opts) w) as [code ->].
    unfold eval, host_call, afterExec. cbn.
    destruct (evalCode s code (Some proxy) (w_heap w)) as [h' [e|]]; cbn.
    + right. eauto.
    + destruct (o_afterExec opts) as [g|]; unfold ret, host_call; cbn.
      * destruct (g inlineScript (SStr s) h') as [h'' [e|]]; cbn; right; eauto.
      * right; eauto.
Qed.

(** C10. The generator assigns the caller's sandbox to the property
    [proxy] of the real global [window] in every mode and for every script,
    before it returns the code; so whenever [geval] evaluates a script
    (entry or not: [exec] evaluates through [geval] only), the evaluation
    happens with [window.proxy] being the sandbox of that call. The
    property is one cell of the shared world: the write of a second
    invocation, given another sandbox, replaces that of the first. *)
Theorem window_proxy_is_shared_global `{Host} (scriptSrc scriptText : string)
    (proxy : gref) (strictGlobal : bool) (vars : list string) (w : world) :
  w_proxy (getExecutableScript scriptSrc scriptText proxy strictGlobal vars w).2
  = Some proxy
  /\ (forall opts script inlineScript,
        let w' := (geval proxy opts script inlineScript w).2 in
        trace w' = trace w
        \/ exists src code, script = SStr src /\ w_proxy w' = Some proxy
             /\ trace w' = (trace w ++ [EEval src code (Some proxy)])%list)
  /\ (forall scriptSrc' scriptText' proxy' strictGlobal' vars',
        w_proxy (getExecutableScript scriptSrc' scriptText' proxy' strictGlobal' vars'
                   (getExecutableScript scriptSrc scriptText proxy strictGlobal vars w).2).2
        = Some proxy').
Proof.
  split; [reflexivity|]. split; [|reflexivity].
  intros opts script inlineScript. apply geval_trace.
Qed.

(** ** Resolution never throws in the caller's stack *)

Lemma mapM__ok `{Host} {A B} (f : A -> M B) (l : list A) (w : world) :
  (forall x w, exists y w', f x w = (Ok y, w')) ->
  exists ys w', mapM_ f l w = (Ok ys, w') /\ length ys = length l.
Proof.
  intros Hf. revert w. induction l as [|x l IH]; intros w.
  - exists [], w. split; reflexivity.
  - cbn [mapM_]. unfold bind at 1.
    destruct (Hf x w) as (y & w1 & ->).
    unfold bind at 1. destruct (IH w1) as (ys & w2 & -> & Hlen).
    exists (y :: ys), w2. split; [reflexivity|]. cbn. congruence.
Qed.

Lemma fetchScript_ok `{Host} (f : fetcher) (url : string) (o : fetch_opts) (w : world) :
  exists p w', fetchScript f url o w = (Ok p, w').
Proof.
  unfold fetchScript. destruct (scriptCache w !! url); eauto.
Qed.

Lemma externalScript_ok `{Host} (f : fetcher) (s : script) (w : world) :
  exists m w', externalScript f s w = (Ok m, w').
Proof.
  destruct s as [s|o]; cbn [externalScript].
  - destruct (isInlineCode s); [unfold ret; eauto|].
    unfold bind. destruct (fetchScript_ok f s NoOpts w) as (p & w' & ->).
    unfold ret; eauto.
  - destruct (async o).
    + unfold bind, new_text_promise, requestIdleCallback, modify, ret. eauto.
    + unfold bind.
      destruct (fetchScript_ok f (src o) (Opts (crossOrigin o)) w) as (p & w' & ->).
      unfold ret; eauto.
Qed.

Lemma styleSheet_ok `{Host} (f : fetcher) (s : string) (w : world) :
  exists m w', styleSheet f s w = (Ok m, w').
Proof.
  unfold styleSheet. destruct (isInlineCode s); [unfold ret; eauto|].
  destruct (styleCache w !! s); eauto.
Qed.

Lemma getExternalScripts_ok `{Host} (scripts : list script) (f : fetcher) (w : world) :
  exists ms w', getExternalScripts scripts f w = (Ok ms, w')
                /\ length ms = length scripts.
Proof. apply mapM__ok. intros; apply externalScript_ok. Qed.

Lemma getExternalStyleSheets_ok `{Host} (styles : list string) (f : fetcher) (w : world) :
  exists ms w', getExternalStyleSheets styles f w = (Ok ms, w')
                /\ length ms = length styles.
Proof. apply mapM__ok. intros; apply styleSheet_ok. Qed.

(** ** Public facade *)

Lemma last_script_snoc (scripts : list script) (s : script) :
  last_script (scripts ++ [s]) = script_val s.
Proof.
  unfold last_script. rewrite length_app. cbn [length].
  replace (length scripts + 1 - 1) with (length scripts + 0) by lia.
  rewrite lookup_app_r by lia.
  replace (length scripts + 0 - length scripts) with 0 by lia. reflexivity.
Qed.

(** C8. For a config whose [scripts] array is not empty (it ends with [s]),
    the handle's [execScripts] calls the exported [execScripts] with the
    last element of [scripts] as the entry identifier: the pending call
    it returns carries that entry and the whole list, which is the list
    [importEntry] took from the config. For
    [["http://x/a.js", "http://x/b.js"]] the entry is ["http://x/b.js"]. *)
Theorem importEntry_entry_is_last_script `{Host} (scripts : list script) (s : script)
    (f : fetcher) (proxy : option gref) (strictGlobal : option bool)
    (opts : exec_opts) (w : world) :
  importEntry_execScripts (scripts ++ [s]) f proxy strictGlobal opts w
  = (let* pe := execScripts (script_val s) (scripts ++ [s]) (default Window proxy)
                  (spread f strictGlobal opts) in
     ret (Waiting pe)) w
  /\ (exists pe w',
        importEntry_execScripts (scripts ++ [s]) f proxy strictGlobal opts w
        = (Ok (Waiting pe), w')
        /\ pe_entry pe = script_val s /\ pe_scripts pe = (scripts ++ [s])%list)
  /\ (forall styles html f' getTemplate w0,
        exists template styleSheets w1,
          importEntry (EntryConfig (Config (Arr (scripts ++ [s])) (Arr styles) html))
            f' getTemplate w0
          = (Ok (Embedding template styles (scripts ++ [s]) styleSheets), w1))
  /\ last_script [SStr "http://x/a.js"; SStr "http://x/b.js"] = VStr "http://x/b.js".
Proof.
  assert (Heq : importEntry_execScripts (scripts ++ [s]) f proxy strictGlobal opts w
    = (let* pe := execScripts (script_val s) (scripts ++ [s]) (default Window proxy)
                    (spread f strictGlobal opts) in
       ret (Waiting pe)) w).
  { unfold importEntry_execScripts. rewrite last_script_snoc.
    destruct scripts; reflexivity. }
  split; [exact Heq|]. split; [|split; [|reflexivity]].
  - rewrite Heq. unfold execScripts, bind.
    destruct (getExternalScripts_ok (scripts ++ [s])
                (fetch (spread f strictGlobal opts)) w) as (ms & w' & -> & _).
    unfold ret. eexists _, _. split; [reflexivity|]. split; reflexivity.
  - intros styles html f' getTemplate w0. unfold importEntry. cbn.
    unfold bind, getEmbedHTML.
    destruct (getExternalStyleSheets_ok styles (default defaultFetch f') w0)
      as (ms & w1 & -> & _).
    unfold ret. eauto.
Qed.

(** C9. Given a config object (not a string) in which neither [scripts] nor
    [styles] is an array, [importEntry] throws the SyntaxError in the
    caller's stack and the world is as it was: no fetch was made, no cache
    or template touched. *)
Theorem importEntry_config_error `{Host} (c : config) (fetch : option fetcher)
    (getTemplate : option (string -> string)) (w : world) :
  isArray (c_scripts c) = false ->
  isArray (c_styles c) = false ->
  importEntry (EntryConfig c) fetch getTemplate w
  = (Throw (SyntaxError "entry scripts or styles should be array!"), w).
Proof.
  intros Hs Ht. unfold importEntry. rewrite Hs, Ht. reflexivity.
Qed.

(** ** Resource cache *)

Lemma fetch_count_app (L : string) (t1 t2 : list event) :
  fetch_count L (t1 ++ t2) = fetch_count L t1 + fetch_count L t2.
Proof. unfold fetch_count. rewrite List.filter_app, length_app. reflexivity. Qed.

Lemma cached_insert (c : gmap string pid) (url L : string) (p : pid) :
  c !! url = None ->
  cached (<[url := p]> c) L = (if String.eqb url L then 1 else 0) + cached c L.
Proof.
  intros Hnone. unfold cached. destruct (String.eqb_spec url L) as [->|Hne].
  - rewrite lookup_insert_eq, Hnone. reflexivity.
  - rewrite lookup_insert_ne by exact Hne. reflexivity.
Qed.

Section CacheInvariant.
Context `{Host}.

Lemma mapM__preserves {A B} (P : world -> Prop) (f : A -> M B) (l : list A) :
  (forall x w, P w -> P (f x w).2) ->
  forall w, P w -> P (mapM_ f l w).2.
Proof.
  intros Hf. induction l as [|x l IH]; intros w Hw; [exact Hw|].
  cbn [mapM_]. unfold bind at 1. specialize (Hf x w Hw).
  destruct (f x w) as [[y|e] w1]; [|exact Hf].
  unfold bind at 1. specialize (IH w1 Hf).
  destruct (mapM_ f l w1) as [[ys|e] w2]; exact IH.
Qed.

Lemma styleSheet_counted (f : fetcher) (styleLink : string) (w : world) :
  counted w -> counted (styleSheet f styleLink w).2.
Proof.
  intros Hw. unfold styleSheet. destruct (isInlineCode styleLink); [exact Hw|].
  destruct (styleCache w !! styleLink) as [p|] eqn:Hc; [exact Hw|].
  intros L. cbn. rewrite fetch_count_app, (cached_insert _ _ _ _ Hc), (Hw L).
  unfold fetch_count. cbn. destruct (styleLink =? L)%string; cbn; lia.
Qed.

Lemma fetchScript_counted (f : fetcher) (url : string) (o : fetch_opts) (w : world) :
  counted w -> counted (fetchScript f url o w).2.
Proof.
  intros Hw. unfold fetchScript.
  destruct (scriptCache w !! url) as [p|] eqn:Hc; [exact Hw|].
  intros L. cbn. rewrite fetch_count_app, (cached_insert _ _ _ _ Hc), (Hw L).
  unfold fetch_count. cbn. destruct (url =? L)%string; cbn; lia.
Qed.

Lemma externalScript_counted (f : fetcher) (s : script) (w : world) :
  counted w -> counted (externalScript f s w).2.
Proof.
  intros Hw. destruct s as [s|o]; cbn [externalScript].
  - destruct (isInlineCode s); [exact Hw|].
    unfold bind. pose proof (fetchScript_counted f s NoOpts w Hw) as Hf.
    destruct (fetchScript f s NoOpts w) as [[p|e] w']; exact Hf.
  - destruct (async o); [exact Hw|].
    unfold bind.
    pose proof (fetchScript_counted f (src o) (Opts (crossOrigin o)) w Hw) as Hf.
    destruct (fetchScript f (src o) (Opts (crossOrigin o)) w) as [[p|e] w']; exact Hf.
Qed.

Lemma settle_counted (p : pid) (o : pstate string) (w : world) :
  counted w -> counted (settle p o w).
Proof.
  intros Hw. unfold settle. destruct (texts w !! p) as [[| | |]|]; exact Hw.
Qed.

Lemma run_idle_counted (w : world) : counted w -> counted (run_idle w).2.
Proof.
  intros Hw. unfold run_idle. destruct (idle w) as [|t rest]; [exact Hw|].
  unfold bind.
  assert (Hw' : counted (set_idle rest w)) by exact Hw.
  pose proof (fetchScript_counted (it_fetch t) (it_src t) (it_opts t) _ Hw') as Hf.
  destruct (fetchScript (it_fetch t) (it_src t) (it_opts t) (set_idle rest w))
    as [[p|e] w']; [|exact Hf].
  unfold modify. cbn.
  destruct (texts w' !! p) as [[| | |]|]; exact Hf.
Qed.

Lemma step_counted (w : world) (o : op) : counted w -> counted (step w o).
Proof.
  intros Hw. destruct o as [styles f|scripts f| |p o]; cbn [step].
  - apply (mapM__preserves counted); [intros; by apply styleSheet_counted | exact Hw].
  - apply (mapM__preserves counted); [intros; by apply externalScript_counted | exact Hw].
  - by apply run_idle_counted.
  - by apply settle_counted.
Qed.

Lemma run_counted (ops : list op) (w : world) : counted w -> counted (run ops w).
Proof.
  revert w. induction ops as [|o ops IH]; intros w Hw; [exact Hw|].
  cbn [run foldl]. apply IH. by apply step_counted.
Qed.

Lemma boot_counted (h : heap) : counted (boot h).
Proof. intros L. reflexivity. Qed.

Lemma style_ops_scriptCache (ops : list op) (w : world) :
  scriptCache_empty w -> scriptCache_empty (run (List.filter is_style_op ops) w).
Proof.
  revert w. induction ops as [|o ops IH]; intros w Hw; [exact Hw|].
  cbn [List.filter]. destruct o as [styles f|scripts f| |p o]; cbn [is_style_op];
    try (by apply IH).
  - cbn [run foldl step]. apply IH.
    apply (mapM__preserves scriptCache_empty); [|exact Hw].
    intros x w0 Hw0. unfold styleSheet. destruct (isInlineCode x); [exact Hw0|].
    destruct (styleCache w0 !! x); exact Hw0.
  - cbn [run foldl step]. apply IH.
    unfold settle. destruct (texts w !! p) as [[| | |]|]; exact Hw.
Qed.

Lemma fetchScript_styleCache (f : fetcher) (url : string) (o : fetch_opts) (w : world) :
  styleCache_empty w -> styleCache_empty (fetchScript f url o w).2.
Proof.
  intros Hw. unfold fetchScript. destruct (scriptCache w !! url); exact Hw.
Qed.

Lemma script_ops_styleCache (ops : list op) (w : world) :
  styleCache_empty w -> styleCache_empty (run (List.filter is_script_op ops) w).
Proof.
  revert w. induction ops as [|o ops IH]; intros w Hw; [exact Hw|].
  cbn [List.filter]. destruct o as [styles f|scripts f| |p o]; cbn [is_script_op];
    try (by apply IH).
  - cbn [run foldl step]. apply IH.
    apply (mapM__preserves styleCache_empty); [|exact Hw].
    intros x w0 Hw0. destruct x as [s|so]; cbn [externalScript].
    + destruct (isInlineCode s); [exact Hw0|]. unfold bind.
      pose proof (fetchScript_styleCache f s NoOpts w0 Hw0) as Hf.
      destruct (fetchScript f s NoOpts w0) as [[q|e] w']; exact Hf.
    + destruct (async so); [exact Hw0|]. unfold bind.
      pose proof (fetchScript_styleCache f (src so) (Opts (crossOrigin so)) w0 Hw0) as Hf.
      destruct (fetchScript f (src so) (Opts (crossOrigin so)) w0) as [[q|e] w']; exact Hf.
  - cbn [run foldl step]. apply IH.
    unfold run_idle. destruct (idle w) as [|t rest]; [exact Hw|].
    unfold bind.
    assert (Hw' : styleCache_empty (set_idle rest w)) by exact Hw.
    pose proof (fetchScript_styleCache (it_fetch t) (it_src t) (it_opts t) _ Hw') as Hf.
    destruct (fetchScript (it_fetch t) (it_src t) (it_opts t) (set_idle rest w))
      as [[q|e] w']; [|exact Hf].
    unfold modify. cbn. destruct (texts w' !! q) as [[| | |]|]; exact Hf.
  - cbn [run foldl step]. apply IH.
    unfold settle. destruct (texts w !! p) as [[| | |]|]; exact Hw.
Qed.

End CacheInvariant.

Lemma settle_caches `{Host} (p : pid) (o : pstate string) (w : world) :
  styleCache (settle p o w) = styleCache w /\ scriptCache (settle p o w) = scriptCache w.
Proof. unfold settle. destruct (texts w !! p) as [[| | |]|]; split; reflexivity. Qed.

Lemma cached_le (c : gmap string pid) (L : string) : cached c L <= 1.
Proof. unfold cached. destruct (c !! L); lia. Qed.

Lemma cached_empty (L : string) : cached ∅ L = 0.
Proof. unfold cached. rewrite lookup_empty. reflexivity. Qed.

(** C3, as the code has it. In any run of style and script resolutions
    from process start (requests made while an earlier one is pending or
    after it settled, with whatever fetch capabilities), the number of
    fetch invocations for [L] is the number of caches holding [L]: at most
    one through style resolution and at most one through script
    resolution, the two caches being separate. A cache hit hands back the
    stored promise without looking at its state, also after the request
    failed, and invokes no fetch. *)
Theorem fetch_once_per_cache `{Host} (ops : list op) (h : heap) (L : string) :
  let w := run ops (boot h) in
  fetch_count L (trace w) = cached (styleCache w) L + cached (scriptCache w) L
  /\ fetch_count L (trace w) <= 2
  /\ fetch_count L (trace (run (List.filter is_style_op ops) (boot h))) <= 1
  /\ fetch_count L (trace (run (List.filter is_script_op ops) (boot h))) <= 1
  /\ (forall f p e,
        styleCache w !! L = Some p -> isInlineCode L = false ->
        styleSheet f L w = (Ok (MPromise p), w)
        /\ styleSheet f L (settle p (Rejected e) w)
           = (Ok (MPromise p), settle p (Rejected e) w))
  /\ (forall f o p e,
        scriptCache w !! L = Some p ->
        fetchScript f L o w = (Ok p, w)
        /\ fetchScript f L o (settle p (Rejected e) w)
           = (Ok p, settle p (Rejected e) w)).
Proof.
  intros w.
  assert (Hw : counted w) by (apply run_counted, boot_counted).
  split; [apply Hw|].
  split; [rewrite (Hw L); pose proof (cached_le (styleCache w) L);
          pose proof (cached_le (scriptCache w) L); lia|].
  split.
  { rewrite (run_counted _ _ (boot_counted h) L).
    rewrite (style_ops_scriptCache ops (boot h) eq_refl), cached_empty.
    pose proof (cached_le (styleCache (run (List.filter is_style_op ops) (boot h))) L).
    lia. }
  split.
  { rewrite (run_counted _ _ (boot_counted h) L).
    rewrite (script_ops_styleCache ops (boot h) eq_refl), cached_empty.
    pose proof (cached_le (scriptCache (run (List.filter is_script_op ops) (boot h))) L).
    lia. }
  split.
  - intros f p e Hc Hin. unfold styleSheet. rewrite Hin.
    destruct (settle_caches p (Rejected e) w) as [-> _]. rewrite Hc. split; reflexivity.
  - intros f o p e Hc. unfold fetchScript.
    destruct (settle_caches p (Rejected e) w) as [_ ->]. rewrite Hc. split; reflexivity.
Qed.

(** C3 as stated fails: a location asked for once as a style and once as a
    script is fetched twice, once for each cache. *)
Lemma fetch_twice_style_and_script :
  fetch_count "http://x/a"
    (trace (run [OStyles ["http://x/a"] defaultFetch;
                 OScripts [SStr "http://x/a"] defaultFetch] demo_world))
  = 2.
Proof. vm_compute. reflexivity. Qed.

(** A request that failed is not made again: the second call gets the
    rejected promise of the first. *)
Example failed_fetch_not_retried :
  let w := run [OScripts [SStr "http://x/a.js"] defaultFetch;
                OSettle 1 (Rejected (Thrown 9))] demo_world in
  texts w !! 1 = Some (Rejected (Thrown 9))
  /\ (getExternalScripts [SStr "http://x/a.js"] defaultFetch w).1 = Ok [MPromise 1]
  /\ fetch_count "http://x/a.js"
       (trace (getExternalScripts [SStr "http://x/a.js"] defaultFetch w).2) = 1.
Proof. vm_compute. repeat split; reflexivity. Qed.

(** ** Script scheduler and executor *)

Section Steps.
Context `{Host}.

#[export] Instance quietly_preorder : PreOrder quietly.
Proof.
  split.
  - intros w. exists []. split; [by rewrite app_nil_r | constructor].
  - intros w1 w2 w3 (t1 & H1 & Q1) (t2 & H2 & Q2).
    exists (t1 ++ t2)%list. split; [by rewrite H2, H1, app_assoc|].
    by apply Forall_app.
Qed.

#[export] Instance evaluates_preorder : PreOrder evaluates.
Proof.
  split.
  - intros w. split; reflexivity.
  - intros w1 w2 w3 [F1 Q1] [F2 Q2]. split; [congruence | by etrans].
Qed.

#[export] Instance keeps_promises_preorder : PreOrder keeps_promises.
Proof.
  split.
  - intros w. repeat split; reflexivity.
  - intros w1 w2 w3 (X1 & T1 & Q1) (X2 & T2 & Q2).
    repeat split; [congruence | congruence | by etrans].
Qed.

#[export] Instance keeps_settled_preorder (p : pid) : PreOrder (keeps_settled p).
Proof.
  split.
  - intros w. split; [tauto | reflexivity].
  - intros w1 w2 w3 [S1 Q1] [S2 Q2]. split; [|by etrans].
    intros Hs. rewrite S2; rewrite S1; auto.
Qed.

Lemma evaluates_keeps_promises (w w' : world) : evaluates w w' -> keeps_promises w w'.
Proof.
  intros [F Q]. unfold frame in F. repeat split; [congruence | congruence | exact Q].
Qed.

Lemma keeps_promises_settled (p : pid) (w w' : world) :
  keeps_promises w w' -> keeps_settled p w w'.
Proof. intros (X & _ & Q). split; [by rewrite X | exact Q]. Qed.

Section Combinators.
Context (R : world -> world -> Prop) `{!PreOrder R}.

Lemma steps_ret {A} (a : A) : steps R (ret a).
Proof. intros w. reflexivity. Qed.

Lemma steps_throw {A} (e : error) : steps R (throw (A := A) e).
Proof. intros w. reflexivity. Qed.

Lemma steps_bind {A B} (m : M A) (k : A -> M B) :
  steps R m -> (forall a, steps R (k a)) -> steps R (bind m k).
Proof.
  intros Hm Hk w. unfold bind. specialize (Hm w).
  destruct (m w) as [[a|e] w']; [|exact Hm].
  etrans; [exact Hm | apply Hk].
Qed.

Lemma steps_try_catch {A} (m : M A) (h : error -> M A) :
  steps R m -> (forall e, steps R (h e)) -> steps R (try_catch m h).
Proof.
  intros Hm Hh w. unfold try_catch. specialize (Hm w).
  destruct (m w) as [[a|e] w']; [exact Hm|].
  etrans; [exact Hm | apply Hh].
Qed.

Lemma steps_modify (f : world -> world) :
  (forall w, R w (f w)) -> steps R (modify f).
Proof. intros Hf w. apply Hf. Qed.

End Combinators.

End Steps.

Section ExecutorSteps.
Context `{Host}.
Variable entry : jsval.
Variable scripts : list script.
Variable proxy : gref.
Variable opts : exec_opts.

Lemma quietly_same_trace (w w' : world) : trace w' = trace w -> quietly w w'.
Proof. intros Ht. exists []. split; [by rewrite app_nil_r | constructor]. Qed.

Lemma quietly_one (w w' : world) (e : event) :
  quiet e -> trace w' = (trace w ++ [e])%list -> quietly w w'.
Proof. intros Hq Ht. exists [e]. split; [exact Ht | by repeat constructor]. Qed.

Lemma evaluates_same (w w' : world) :
  frame w' = frame w -> trace w' = trace w -> evaluates w w'.
Proof. intros Hf Ht. split; [exact Hf | by apply quietly_same_trace]. Qed.

Lemma host_call_evaluates (f : heap -> heap * option error) :
  steps evaluates (host_call f).
Proof.
  intros w. unfold host_call. destruct (f (w_heap w)) as [h [e|]];
    by apply evaluates_same.
Qed.

Lemma beforeExec_evaluates (inlineScript : item) (scriptSrc : script) :
  steps evaluates (beforeExec opts inlineScript scriptSrc).
Proof.
  intros w. unfold beforeExec. destruct (o_beforeExec opts) as [f|].
  - destruct (f inlineScript scriptSrc (w_heap w)) as [h r]. by apply evaluates_same.
  - reflexivity.
Qed.

Lemma afterExec_evaluates (inlineScript : item) (scriptSrc : script) :
  steps evaluates (afterExec opts inlineScript scriptSrc).
Proof.
  unfold afterExec. destruct (o_afterExec opts) as [f|].
  - apply host_call_evaluates.
  - apply steps_ret. apply _.
Qed.

Lemma eval_evaluates (scriptSrc code : string) : steps evaluates (eval scriptSrc code).
Proof.
  intros w. unfold eval, host_call. cbn.
  destruct (evalCode scriptSrc code (w_proxy w) (w_heap w)) as [h [e|]];
    (split; [reflexivity | eapply quietly_one; [|reflexivity]; exact I]).
Qed.

Lemma getExecutableScript_evaluates (scriptSrc scriptText : string) (g : gref)
    (strict : bool) (vars : list string) :
  steps evaluates (getExecutableScript scriptSrc scriptText g strict vars).
Proof. intros w. by apply evaluates_same. Qed.

Lemma geval_evaluates (scriptSrc : script) (inlineScript : item) :
  steps evaluates (geval proxy opts scriptSrc inlineScript).
Proof.
  unfold geval. apply steps_bind; [apply _ | apply beforeExec_evaluates |].
  intros hooked. destruct scriptSrc as [s|o]; [|apply steps_throw, _].
  apply steps_bind; [apply _ | apply getExecutableScript_evaluates |].
  intros code. apply steps_bind; [apply _ | apply eval_evaluates |].
  intros _. apply afterExec_evaluates.
Qed.

Lemma throwNonBlockingError_keeps (e : error) (msg : string) :
  steps keeps_promises (throwNonBlockingError e msg).
Proof. intros w. repeat split; by apply quietly_same_trace. Qed.

Lemma steps_weaken {A} (R S : world -> world -> Prop) (m : M A) :
  (forall w w', R w w' -> S w w') -> steps R m -> steps S m.
Proof. intros HRS Hm w. apply HRS, Hm. Qed.

Lemma geval_keeps_promises (scriptSrc : script) (inlineScript : item) :
  steps keeps_promises (geval proxy opts scriptSrc inlineScript).
Proof.
  eapply steps_weaken; [apply evaluates_keeps_promises | apply geval_evaluates].
Qed.

Lemma emit_quiet_keeps (e : event) : quiet e -> steps keeps_promises (emit e).
Proof. intros Hq w. repeat split. eapply quietly_one; [exact Hq | reflexivity]. Qed.

(** A script that is not the entry leaves every promise as it is, whether
    it throws or not. *)
Lemma exec_other_keeps (scriptSrc : script) (inlineScript : item)
    (r : jsval -> M unit) :
  strict_eq scriptSrc entry = false ->
  steps keeps_promises (exec entry proxy opts scriptSrc inlineScript r).
Proof.
  intros Hne. unfold exec. rewrite Hne. destruct inlineScript as [t|h|].
  - apply steps_try_catch; [apply _ | | intros; apply throwNonBlockingError_keeps].
    destruct scriptSrc as [s|o]; [apply geval_keeps_promises|].
    destruct (nonempty (src o)); apply geval_keeps_promises.
  - destruct (h_async h); [|apply steps_ret, _].
    intros w. repeat split; by apply quietly_same_trace.
  - apply steps_throw, _.
Qed.

Lemma resolve_keeps_settled (p : pid) (v : jsval) : steps (keeps_settled p) (resolve p v).
Proof.
  intros w. unfold resolve, modify. cbn.
  destruct (executions w !! p) as [[| | |]|] eqn:Hx;
    (split; [|by apply quietly_same_trace]); cbn; tauto.
Qed.

Lemma resolvePromise_keeps_settled (p : pid) (v : jsval) :
  steps (keeps_settled p) (resolvePromise opts (resolve p) v).
Proof.
  unfold resolvePromise. destruct (o_success opts) as [success|].
  - eapply steps_weaken; [|apply host_call_evaluates].
    intros w w' Hw. by apply keeps_promises_settled, evaluates_keeps_promises.
  - apply resolve_keeps_settled.
Qed.

(** Whatever script runs, a promise that is settled stays as it is. *)
Lemma exec_keeps_settled (p : pid) (scriptSrc : script) (inlineScript : item) :
  steps (keeps_settled p)
    (exec entry proxy opts scriptSrc inlineScript (resolvePromise opts (resolve p))).
Proof.
  destruct (strict_eq scriptSrc entry) eqn:He.
  - unfold exec. rewrite He.
    apply steps_bind; [apply _ | |].
    { intros w. split; [tauto | by apply quietly_same_trace]. }
    intros _. apply steps_try_catch; [apply _ | |].
    + apply steps_bind; [apply _ | |].
      { eapply steps_weaken; [|apply geval_keeps_promises].
        intros; by apply keeps_promises_settled. }
      intros _. apply steps_bind; [apply _ | |].
      { intros w. reflexivity. }
      intros v. apply resolvePromise_keeps_settled.
    + intros e. apply steps_bind; [apply _ | | intros; apply steps_throw, _].
      eapply steps_weaken; [|by apply (emit_quiet_keeps (EConsoleError _))].
      intros; by apply keeps_promises_settled.
  - eapply steps_weaken; [|by apply exec_other_keeps].
    intros; by apply keeps_promises_settled.
Qed.

End ExecutorSteps.

Section ScheduleSteps.
Context `{Host}.
Variable entry : jsval.
Variable scripts : list script.
Variable proxy : gref.
Variable opts : exec_opts.
Variable scriptsText : list item.

#[local] Abbreviation exec' := (exec entry proxy opts).
#[local] Abbreviation schedule' := (schedule entry scripts proxy opts scriptsText).
#[local] Abbreviation reaches' := (reaches entry scripts proxy opts scriptsText).

(** The body of [schedule] for an index inside the array. *)
Lemma schedule_inside (i : nat) (scriptSrc : script) (r : jsval -> M unit) (w : world) :
  scripts !! i = Some scriptSrc ->
  schedule' i r w
  = (emit (EIssue i) >>
     exec' scriptSrc (default IUndefined (scriptsText !! i)) r >>
     if negb (truthy entry) && Nat.eqb i (length scripts - 1) then r VUndefined
     else schedule' (i + 1) r) w.
Proof.
  intros Hi. pose proof (lookup_lt_Some _ _ _ Hi) as Hlt.
  unfold schedule.
  replace (length scripts - i) with (S (length scripts - (i + 1))) by lia.
  cbn [schedule_loop]. rewrite Hi. reflexivity.
Qed.

(** [schedule] past the end of the array does nothing. *)
Lemma schedule_outside (i : nat) (r : jsval -> M unit) (w : world) :
  scripts !! i = None -> schedule' i r w = (Ok tt, w).
Proof.
  intros Hi. apply lookup_ge_None in Hi. unfold schedule.
  replace (length scripts - i) with 0 by lia. reflexivity.
Qed.

(** More fuel than [length scripts - i] changes nothing. *)
Lemma schedule_loop_fuel (fuel i : nat) (r : jsval -> M unit) (w : world) :
  length scripts - i <= fuel ->
  schedule_loop entry scripts proxy opts scriptsText fuel i r w = schedule' i r w.
Proof.
  revert i w. induction fuel as [|fuel IH]; intros i w Hf.
  - unfold schedule. replace (length scripts - i) with 0 by lia. reflexivity.
  - destruct (scripts !! i) as [s|] eqn:Hi.
    + rewrite (schedule_inside i s r w Hi). cbn [schedule_loop]. rewrite Hi.
      unfold bind. destruct (emit (EIssue i) w) as [[[]|e] w1]; [|reflexivity].
      destruct (exec' s (default IUndefined (scriptsText !! i)) r w1) as [[[]|e] w2];
        [|reflexivity].
      destruct (negb (truthy entry) && Nat.eqb i (length scripts - 1)); [reflexivity|].
      apply IH. lia.
    + rewrite (schedule_outside i r w Hi). cbn [schedule_loop]. rewrite Hi. reflexivity.
Qed.

Lemma reaches_schedule (r : jsval -> M unit) (k i : nat) (w wi : world) :
  reaches' r k w i wi -> schedule' k r w = schedule' i r wi.
Proof.
  induction 1 as [|k w s w' i wi Hk Hexec Hlast _ IH]; [reflexivity|].
  rewrite (schedule_inside k s r w Hk). rewrite <- IH.
  unfold bind in *. destruct (emit (EIssue k) w) as [[[]|e] w1]; [|discriminate].
  destruct (exec' s (default IUndefined (scriptsText !! k)) r w1) as [[[]|e] w2];
    [|discriminate].
  injection Hexec as ->. rewrite Hlast. reflexivity.
Qed.

Lemma reaches_le (r : jsval -> M unit) (k i : nat) (w wi : world) :
  reaches' r k w i wi -> k <= i.
Proof. induction 1; lia. Qed.

(** Until the entry is met, the promises stay as they are. *)
Lemma reaches_keeps_promises (r : jsval -> M unit) (k i : nat) (w wi : world) :
  reaches' r k w i wi ->
  (forall j sj, k <= j < i -> scripts !! j = Some sj -> strict_eq sj entry = false) ->
  executions wi = executions w /\ texts wi = texts w.
Proof.
  induction 1 as [|k w s w' i wi Hk Hexec Hlast Hreach IH]; intros Hfirst; [done|].
  pose proof (reaches_le _ _ _ _ _ Hreach) as Hle.
  assert (Hs : strict_eq s entry = false) by (apply (Hfirst k); [lia | exact Hk]).
  destruct IH as [IHx IHt]; [intros j sj Hj; apply Hfirst; lia|].
  unfold bind in Hexec. cbn in Hexec.
  pose proof (exec_other_keeps entry proxy opts s
                (default IUndefined (scriptsText !! k)) r Hs
                (set_trace (trace w ++ [EIssue k]) w)) as (Hx & Ht & _).
  destruct (exec' s (default IUndefined (scriptsText !! k)) r
              (set_trace (trace w ++ [EIssue k]) w)) as [[[]|e] w2]; [|discriminate].
  injection Hexec as <-. cbn in Hx, Ht. split; congruence.
Qed.

Lemma keeps_settled_stays (p : pid) (w w' : world) :
  keeps_settled p w w' -> stays_settled p w w'.
Proof. intros [Hs _]. exact Hs. Qed.

#[export] Instance stays_settled_preorder (p : pid) : PreOrder (stays_settled p).
Proof.
  split.
  - intros w Hs. reflexivity.
  - intros w1 w2 w3 S1 S2 Hs. rewrite S2; rewrite S1; auto.
Qed.

(** However far the scheduler gets, a settled promise stays as it is. *)
Lemma schedule_loop_stays_settled (p : pid) (fuel i : nat) :
  steps (stays_settled p)
    (schedule_loop entry scripts proxy opts scriptsText fuel i
       (resolvePromise opts (resolve p))).
Proof.
  revert i. induction fuel as [|fuel IH]; intros i; [apply steps_ret, _|].
  cbn [schedule_loop]. destruct (scripts !! i) as [s|]; [|apply steps_ret, _].
  apply steps_bind; [apply _ | |].
  { intros w Hs. reflexivity. }
  intros _. apply steps_bind; [apply _ | |].
  { eapply steps_weaken; [apply keeps_settled_stays | apply exec_keeps_settled]. }
  intros _. destruct (negb (truthy entry) && Nat.eqb i (length scripts - 1)).
  - eapply steps_weaken; [apply keeps_settled_stays | apply resolvePromise_keeps_settled].
  - apply IH.
Qed.

Lemma issued_below_trans (n m : nat) (w1 w2 w3 : world) :
  n <= m -> issued_below n w1 w2 -> issued_below m w2 w3 -> issued_below m w1 w3.
Proof.
  intros Hle (t1 & H1 & B1) (t2 & H2 & B2). exists (t1 ++ t2)%list.
  split; [by rewrite H2, H1, app_assoc|].
  intros j Hj. apply elem_of_app in Hj as [Hj|Hj]; [apply B1 in Hj; lia | by apply B2].
Qed.

Lemma quietly_issued_below (n : nat) (w w' : world) :
  quietly w w' -> issued_below n w w'.
Proof.
  intros (t & Ht & Hq). exists t. split; [exact Ht|].
  intros j Hj. rewrite Forall_forall in Hq. destruct (Hq _ Hj).
Qed.

(** Before [schedule] is called with [i], only indices below [i] were
    issued. *)
Lemma reaches_issued_below (p : pid) (k i : nat) (w wi : world) :
  reaches' (resolvePromise opts (resolve p)) k w i wi -> issued_below i w wi.
Proof.
  induction 1 as [k w|k w s w' i wi Hk Hexec Hlast Hreach IH].
  - exists []. split; [by rewrite app_nil_r | intros j Hj; inversion Hj].
  - pose proof (reaches_le _ _ _ _ _ Hreach) as Hle.
    apply (issued_below_trans (k + 1) i w w' wi); [exact Hle | | exact IH].
    unfold bind in Hexec. cbn in Hexec.
    pose proof (exec_keeps_settled entry proxy opts p s
                  (default IUndefined (scriptsText !! k))
                  (set_trace (trace w ++ [EIssue k]) w)) as [_ (t & Ht & Hq)].
    destruct (exec' s (default IUndefined (scriptsText !! k))
                (resolvePromise opts (resolve p))
                (set_trace (trace w ++ [EIssue k]) w)) as [[[]|e] w2]; [|discriminate].
    injection Hexec as <-. cbn in Ht. exists (EIssue k :: t).
    split; [by rewrite Ht, <- app_assoc|].
    intros j Hj. apply elem_of_cons in Hj as [Hj|Hj]; [injection Hj as ->; lia|].
    rewrite Forall_forall in Hq. destruct (Hq _ Hj).
Qed.

End ScheduleSteps.

Section Fatal.
Context `{Host}.
Variable entry : jsval.
Variable scripts : list script.
Variable proxy : gref.
Variable opts : exec_opts.
Variable scriptsText : list item.

Lemma execScripts_then_unfold (w : world) :
  execScripts_then entry scripts proxy opts scriptsText w
  = match schedule entry scripts proxy opts scriptsText 0
            (resolvePromise opts (resolve (next_pid w))) (pending_promise w) with
    | (Ok _, w') => (Ok (next_pid w), w')
    | (Throw e, w') => (Ok (next_pid w), (reject (next_pid w) e w').2)
    end.
Proof. reflexivity. Qed.

(** [exec] on the entry whose evaluation throws: the error is logged and
    thrown on. *)
Lemma exec_entry_throws (s : script) (inlineScript : item) (r : jsval -> M unit)
    (e : error) (w w2 : world) :
  strict_eq s entry = true ->
  geval proxy opts s inlineScript (noted proxy opts w) = (Throw e, w2) ->
  exec entry proxy opts s inlineScript r w
  = (Throw e,
     set_trace (trace w2 ++ [EConsoleError
       ("[import-html-entry]: error occurs while executing entry script "
          +:+ script_text s)]) w2).
Proof.
  intros He Hg. unfold exec. rewrite He.
  unfold bind at 1, modify at 1. fold (noted proxy opts w).
  unfold try_catch, bind at 1. rewrite Hg. reflexivity.
Qed.

(** C1. Let the entry sit at index [i] and nowhere before, let the
    scheduler have come to index [i] in world [wi], and let the evaluation
    of the entry throw [e] there. Then the promise of the execution is
    rejected with [e]; the run ends in the world the failed evaluation
    left, plus the logged error; and no index above [i] was ever issued. *)
Theorem entry_error_is_fatal (i : nat) (s : script) (e : error) (w wi w2 : world) :
  let p := next_pid w in
  reaches entry scripts proxy opts scriptsText (resolvePromise opts (resolve p))
    0 (pending_promise w) i wi ->
  scripts !! i = Some s ->
  strict_eq s entry = true ->
  (forall j sj, j < i -> scripts !! j = Some sj -> strict_eq sj entry = false) ->
  geval proxy opts s (default IUndefined (scriptsText !! i))
    (noted proxy opts (issued i wi)) = (Throw e, w2) ->
  exists w3,
    execScripts_then entry scripts proxy opts scriptsText w = (Ok p, w3)
    /\ executions w3 !! p = Some (Rejected e)
    /\ trace w3
       = (trace w2 ++ [EConsoleError
            ("[import-html-entry]: error occurs while executing entry script "
               +:+ script_text s)])%list
    /\ issued_below (S i) w w3
    /\ reactions w3 = reactions wi /\ timers w3 = timers wi.
Proof.
  intros p Hreach Hi He Hfirst Hg.
  (* the promise is still pending when the entry is met *)
  destruct (reaches_keeps_promises _ _ _ _ _ _ _ _ _ _ Hreach) as [Hx _].
  { intros j sj Hj. apply Hfirst. lia. }
  assert (Hpend : executions wi !! p = Some Pending).
  { rewrite Hx. cbn. apply lookup_insert_eq. }
  pose proof (geval_evaluates proxy opts s (default IUndefined (scriptsText !! i))
                (noted proxy opts (issued i wi))) as [Hframe Hquiet].
  rewrite Hg in Hframe, Hquiet. cbn [snd] in Hframe, Hquiet.
  unfold frame in Hframe. cbn in Hframe.
  (* the run *)
  rewrite execScripts_then_unfold. fold p.
  rewrite (reaches_schedule _ _ _ _ _ _ _ _ _ _ Hreach).
  rewrite (schedule_inside _ _ _ _ _ i s _ wi Hi).
  unfold bind at 1. unfold bind at 1. cbn [emit modify]. fold (issued i wi).
  rewrite (exec_entry_throws s _ _ e (issued i wi) w2 He Hg).
  eexists. split; [reflexivity|].
  unfold reject, modify. cbn.
  assert (Hx2 : executions w2 !! p = Some Pending) by congruence.
  rewrite Hx2. cbn. split; [apply lookup_insert_eq|]. split; [reflexivity|].
  split; [|split; congruence].
  (* what was issued *)
  apply (issued_below_trans i (S i) w wi); [lia | |].
  - destruct (reaches_issued_below _ _ _ _ _ _ _ _ _ _ Hreach) as (t & Ht & Hb).
    exists t. split; [exact Ht | exact Hb].
  - destruct Hquiet as (t & Ht & Hq). cbn in Ht.
    exists ((EIssue i :: t) ++ [EConsoleError
      ("[import-html-entry]: error occurs while executing entry script "
         +:+ script_text s)])%list.
    split; [rewrite Ht; by rewrite <- !app_assoc|].
    intros j Hj. rewrite Forall_forall in Hq.
    apply elem_of_app in Hj as [Hj|Hj].
    + apply elem_of_cons in Hj as [Hj|Hj]; [injection Hj as ->; lia|].
      destruct (Hq _ Hj).
    + apply list_elem_of_singleton in Hj. discriminate.
Qed.

End Fatal.

Section EntryExport.
Context `{Host}.
Variable entry : jsval.
Variable scripts : list script.
Variable proxy : gref.
Variable opts : exec_opts.
Variable scriptsText : list item.


Lemma reject_settled (p : pid) (e : error) (v : jsval) (w : world) :
  executions w !! p = Some (Fulfilled v) ->
  executions (reject p e w).2 !! p = Some (Fulfilled v).
Proof. intros Hx. unfold reject, modify. cbn. rewrite Hx. exact Hx. Qed.



(** What the thenable reports is what becomes of a promise that follows
    it. *)
Lemma reported_following (p : pid) (t : nat) (o : pstate jsval) (w : world) :
  executions w !! p = Some (Following t) ->
  executions (reported p o w) !! p
  = Some match o with
         | Fulfilled v => resolved_with v
         | Rejected e => Rejected e
         | _ => Following t
         end.
Proof.
  intros Hx. unfold reported. rewrite Hx.
  destruct o; cbn; first [exact Hx | apply lookup_insert_eq].
Qed.


End EntryExport.

Section Isolated.
Context `{Host}.
Variable entry : jsval.
Variable scripts : list script.
Variable proxy : gref.
Variable opts : exec_opts.
Variable scriptsText : list item.

(** [exec] on a script that is not the entry and whose evaluation throws:
    the error is caught and queued, and [exec] returns. *)
Lemma exec_other_throws (s : script) (t : string) (r : jsval -> M unit)
    (e : error) (w w2 : world) :
  strict_eq s entry = false ->
  geval proxy opts (geval_src s) (IText t) w = (Throw e, w2) ->
  exec entry proxy opts s (IText t) r w
  = (Ok tt, deferred e (normal_script_msg s) w2).
Proof.
  intros He Hg. unfold exec. rewrite He. unfold try_catch.
  replace (match s with
           | SStr _ => geval proxy opts s (IText t)
           | SObj o => if nonempty (src o) then geval proxy opts (SStr (src o)) (IText t)
                       else geval proxy opts s (IText t)
           end w) with (geval proxy opts (geval_src s) (IText t) w).
  - rewrite Hg. reflexivity.
  - destruct s as [s|o]; [reflexivity|]. cbn. destruct (nonempty (src o)); reflexivity.
Qed.

(** A script that is not the entry never makes [exec] throw. *)
Lemma exec_other_returns (s : script) (inlineScript : item) (r : jsval -> M unit)
    (w : world) :
  strict_eq s entry = false ->
  inlineScript <> IUndefined ->
  (exec entry proxy opts s inlineScript r w).1 = Ok tt.
Proof.
  intros He Hdef. unfold exec. rewrite He. destruct inlineScript as [t|h|]; [| |done].
  - unfold try_catch.
    destruct (match s with
              | SStr _ => geval proxy opts s (IText t)
              | SObj o => if nonempty (src o) then geval proxy opts (SStr (src o)) (IText t)
                          else geval proxy opts s (IText t)
              end w) as [[[]|e] w']; reflexivity.
  - destruct (h_async h); reflexivity.
Qed.

(** Without an entry, the execution is fulfilled when the last index has
    been issued, whatever the scripts did. *)
Lemma schedule_without_entry (p : pid) (n i : nat) (w : world) :
  truthy entry = false ->
  Forall (fun s => strict_eq s entry = false) scripts ->
  length scriptsText = length scripts ->
  IUndefined ∉ scriptsText ->
  o_success opts = None ->
  i + S n = length scripts ->
  executions w !! p = Some Pending ->
  exists w',
    schedule entry scripts proxy opts scriptsText i (resolvePromise opts (resolve p)) w
    = (Ok tt, w')
    /\ executions w' !! p = Some (Fulfilled VUndefined).
Proof.
  intros Hfalsy Hnone Hlen Hdef Hsucc. revert i w.
  induction n as [|n IH]; intros i w Hi Hpend.
  all: destruct (lookup_lt_is_Some_2 scripts i) as [s Hs]; [lia|].
  all: destruct (lookup_lt_is_Some_2 scriptsText i) as [it Hit]; [lia|].
  all: assert (He : strict_eq s entry = false)
         by (rewrite Forall_forall in Hnone; apply Hnone;
             by eapply list_elem_of_lookup_2).
  all: assert (Hit' : it <> IUndefined)
         by (intros ->; apply Hdef; by eapply list_elem_of_lookup_2).
  all: rewrite (schedule_inside _ _ _ _ _ i s _ w Hs), Hit;
         change (default IUndefined (Some it)) with it.
  all: unfold bind at 1; unfold bind at 1; cbn [emit modify]; fold (issued i w).
  all: pose proof (exec_other_returns s it (resolvePromise opts (resolve p))
                     (issued i w) He Hit') as Hok.
  all: pose proof (exec_other_keeps entry proxy opts s it
                     (resolvePromise opts (resolve p)) He (issued i w)) as (Hx & _).
  all: destruct (exec entry proxy opts s it (resolvePromise opts (resolve p))
                   (issued i w)) as [r w1]; cbn in Hok, Hx; subst r.
  all: rewrite Hfalsy; cbn [negb andb].
  - replace (Nat.eqb i (length scripts - 1)) with true by (symmetry; apply Nat.eqb_eq; lia).
    unfold resolvePromise. rewrite Hsucc. unfold resolve, modify. cbv beta.
    rewrite Hx, Hpend. eexists. split; [reflexivity|]. apply lookup_insert_eq.
  - replace (Nat.eqb i (length scripts - 1)) with false by (symmetry; apply Nat.eqb_neq; lia).
    apply IH; [lia | by rewrite Hx].
Qed.

#[export] Instance extends_preorder : PreOrder extends.
Proof.
  split.
  - intros w. exists []. by rewrite app_nil_r.
  - intros w1 w2 w3 [t1 H1] [t2 H2]. exists (t1 ++ t2)%list.
    by rewrite H2, H1, app_assoc.
Qed.

Lemma quietly_extends (w w' : world) : quietly w w' -> extends w w'.
Proof. intros (t & Ht & _). by exists t. Qed.

Lemma schedule_loop_extends (p : pid) (fuel i : nat) :
  steps extends
    (schedule_loop entry scripts proxy opts scriptsText fuel i
       (resolvePromise opts (resolve p))).
Proof.
  revert i. induction fuel as [|fuel IH]; intros i; [apply steps_ret, _|].
  cbn [schedule_loop]. destruct (scripts !! i) as [s|]; [|apply steps_ret, _].
  apply steps_bind; [apply _ | |].
  { intros w. by exists [EIssue i]. }
  intros _. apply steps_bind; [apply _ | |].
  { eapply steps_weaken; [|apply (exec_keeps_settled entry proxy opts p)].
    intros w w' [_ Hq]. by apply quietly_extends. }
  intros _. destruct (negb (truthy entry) && Nat.eqb i (length scripts - 1)).
  - eapply steps_weaken; [|apply (resolvePromise_keeps_settled opts p)].
    intros w w' [_ Hq]. by apply quietly_extends.
  - apply IH.
Qed.

(** The oldest timer fires: its message is logged and its error reaches
    the host uncaught; [run_timer] itself has no caller to throw into. *)
Lemma run_timer_rethrows (e : error) (msg : string) (rest : list (error * string))
    (w : world) :
  timers w = (e, msg) :: rest ->
  run_timer w
  = (Ok tt, set_trace (trace w ++ [EConsoleError msg; EUncaught e]) (set_timers rest w)).
Proof.
  intros Ht. unfold run_timer. rewrite Ht. unfold bind, emit, modify. cbn.
  by rewrite <- app_assoc.
Qed.

(** C2. Let the script at index [i] not be the entry, have its text, and
    throw [e] when evaluated. [exec] catches [e] and queues it with
    [setTimeout]; it returns normally and no promise has changed. The
    scheduler goes on exactly as after a script that returned: it
    resolves if that was the last index and there is no entry, else it
    calls [schedule(i + 1)], which issues the next script if there is
    one. When the timer fires the message is logged and [e] is thrown
    with no caller to catch it. An async script that throws once its
    [content] is there, or whose [content] is rejected, is treated the
    same way. An execution that was fulfilled stays fulfilled, and
    without an entry the execution is fulfilled after the last index,
    whichever scripts threw. *)
Theorem other_error_is_isolated (p : pid) (i : nat) (s : script) (t : string)
    (e : error) (w w2 : world) :
  let r := resolvePromise opts (resolve p) in
  let w3 := deferred e (normal_script_msg s) w2 in
  scripts !! i = Some s ->
  scriptsText !! i = Some (IText t) ->
  strict_eq s entry = false ->
  geval proxy opts (geval_src s) (IText t) (issued i w) = (Throw e, w2) ->
  exec entry proxy opts s (IText t) r (issued i w) = (Ok tt, w3)
  /\ executions w3 = executions w
  /\ last (timers w3) = Some (e, normal_script_msg s)
  /\ schedule entry scripts proxy opts scriptsText i r w
     = (if negb (truthy entry) && Nat.eqb i (length scripts - 1) then r VUndefined
        else schedule entry scripts proxy opts scriptsText (i + 1) r) w3
  /\ (forall s', scripts !! (i + 1) = Some s' ->
        exists t', trace (schedule entry scripts proxy opts scriptsText i r w).2
                   = (trace w3 ++ EIssue (i + 1) :: t')%list)
  /\ (forall v, executions w !! p = Some (Fulfilled v) ->
        executions (schedule entry scripts proxy opts scriptsText i r w).2 !! p
        = Some (Fulfilled v))
  /\ (forall w' rest, timers w' = (e, normal_script_msg s) :: rest ->
        run_timer w'
        = (Ok tt, set_trace (trace w' ++ [EConsoleError (normal_script_msg s);
                                          EUncaught e]) (set_timers rest w')))
  /\ (forall c src' text ea wa wa2,
        texts wa !! c = Some (Fulfilled text) ->
        geval proxy opts (SStr src') (IText text) wa = (Throw ea, wa2) ->
        run_reaction proxy opts (c, src') wa
        = (Ok tt, deferred ea (async_script_msg src') wa2)
        /\ executions wa2 = executions wa)
  /\ (forall c src' ea wa,
        texts wa !! c = Some (Rejected ea) ->
        run_reaction proxy opts (c, src') wa
        = (Ok tt, deferred ea (async_script_msg src') wa))
  /\ (truthy entry = false ->
      Forall (fun s => strict_eq s entry = false) scripts ->
      length scriptsText = length scripts ->
      IUndefined ∉ scriptsText ->
      o_success opts = None ->
      forall w0, exists w',
        execScripts_then entry scripts proxy opts scriptsText w0 = (Ok (next_pid w0), w')
        /\ executions w' !! next_pid w0 = Some (Fulfilled VUndefined)).
Proof.
  intros r w3 Hi Hit He Hg.
  pose proof (exec_other_throws s t r e (issued i w) w2 He Hg) as Hexec.
  pose proof (geval_evaluates proxy opts (geval_src s) (IText t) (issued i w))
    as [Hframe _].
  rewrite Hg in Hframe. cbn [snd] in Hframe. unfold frame in Hframe. cbn in Hframe.
  assert (Hsched : schedule entry scripts proxy opts scriptsText i r w
     = (if negb (truthy entry) && Nat.eqb i (length scripts - 1) then r VUndefined
        else schedule entry scripts proxy opts scriptsText (i + 1) r) w3).
  { rewrite (schedule_inside _ _ _ _ _ i s _ w Hi), Hit.
    change (default IUndefined (Some (IText t))) with (IText t).
    unfold bind at 1. unfold bind at 1. cbn [emit modify]. fold (issued i w).
    fold r. rewrite Hexec. reflexivity. }
  split; [exact Hexec|].
  split; [unfold w3, deferred; cbn; congruence|].
  split; [unfold w3, deferred; cbn; apply last_snoc|].
  split; [exact Hsched|].
  split.
  { intros s' Hnext. rewrite Hsched.
    pose proof (lookup_lt_Some _ _ _ Hnext) as Hlt.
    replace (Nat.eqb i (length scripts - 1)) with false
      by (symmetry; apply Nat.eqb_neq; lia).
    rewrite andb_false_r.
    rewrite (schedule_inside _ _ _ _ _ (i + 1) s' _ w3 Hnext).
    unfold bind at 1. unfold bind at 1. cbn [emit modify]. fold (issued (i + 1) w3).
    set (rest := if negb (truthy entry) && Nat.eqb (i + 1) (length scripts - 1)
                 then r VUndefined
                 else schedule entry scripts proxy opts scriptsText (i + 1 + 1) r).
    assert (Hrest : steps extends rest).
    { unfold rest. destruct (negb (truthy entry) && Nat.eqb (i + 1) (length scripts - 1)).
      - eapply steps_weaken; [|apply (resolvePromise_keeps_settled opts p)].
        intros ? ? [_ Hq]. by apply quietly_extends.
      - apply schedule_loop_extends. }
    pose proof (exec_keeps_settled entry proxy opts p s'
                  (default IUndefined (scriptsText !! (i + 1)))
                  (issued (i + 1) w3)) as [_ (t1 & Ht1 & _)].
    fold r in Ht1.
    destruct (exec entry proxy opts s' (default IUndefined (scriptsText !! (i + 1))) r
                (issued (i + 1) w3)) as [[[]|e'] w4]; cbn [snd] in Ht1 |- *.
    - destruct (Hrest w4) as [t2 Ht2]. exists (t1 ++ t2)%list.
      rewrite Ht2, Ht1. cbn. by rewrite <- !app_assoc.
    - exists t1. rewrite Ht1. cbn. by rewrite <- !app_assoc. }
  split.
  { intros v Hv. unfold r, schedule.
    rewrite (schedule_loop_stays_settled entry scripts proxy opts scriptsText p _ i w);
      [exact Hv | rewrite Hv; discriminate]. }
  split; [intros w' rest Ht; by apply run_timer_rethrows|].
  split.
  { intros c src' text ea wa wa2 Hc Hga. unfold run_reaction. cbn [fst snd].
    rewrite Hc. unfold try_catch. rewrite Hga. split; [reflexivity|].
    pose proof (geval_evaluates proxy opts (SStr src') (IText text) wa) as [Hf _].
    rewrite Hga in Hf. cbn [snd] in Hf. unfold frame in Hf. congruence. }
  split.
  { intros c src' ea wa Hc. unfold run_reaction. cbn [fst snd]. rewrite Hc. reflexivity. }
  intros Hfalsy Hnone Hlen Hdef Hsucc w0.
  pose proof (lookup_lt_Some _ _ _ Hi) as Hlt.
  rewrite execScripts_then_unfold.
  destruct (schedule_without_entry (next_pid w0) (length scripts - 1) 0
              (pending_promise w0) Hfalsy Hnone Hlen Hdef Hsucc) as (w' & -> & Hx).
  - lia.
  - cbn. apply lookup_insert_eq.
  - exists w'. split; [reflexivity | exact Hx].
Qed.

End Isolated.

Section Async.
Context `{Host}.
Variable entry : jsval.
Variable scripts : list script.
Variable proxy : gref.
Variable opts : exec_opts.
Variable scriptsText : list item.

Lemma beforeExec_trace (inlineScript : item) (scriptSrc : script) (w : world) :
  trace (beforeExec opts inlineScript scriptSrc w).2 = trace w.
Proof.
  unfold beforeExec. destruct (o_beforeExec opts) as [g|]; [|reflexivity].
  destruct (g inlineScript scriptSrc (w_heap w)) as [h r]. reflexivity.
Qed.

(** [geval] on a text, when the [beforeExec] hook returns: the code the
    generator makes of the text (or of what the hook returned in its
    place) is evaluated, once, with [window.proxy] being the sandbox. *)
Lemma geval_text_trace (scriptSrc text : string) (hooked : option string)
    (code : string) (w w1 : world) :
  beforeExec opts (IText text) (SStr scriptSrc) w = (Ok hooked, w1) ->
  (getExecutableScript scriptSrc
     match hooked with
     | Some c => if nonempty c then c else text
     | None => text
     end proxy (strictGlobal opts) (scopedGlobalVariables opts) w1).1 = Ok code ->
  trace (geval proxy opts (SStr scriptSrc) (IText text) w).2
  = (trace w ++ [EEval scriptSrc code (Some proxy)])%list.
Proof.
  intros Hb Hcode. pose proof (beforeExec_trace (IText text) (SStr scriptSrc) w) as Ht.
  rewrite Hb in Ht. cbn [snd] in Ht.
  unfold geval. unfold bind at 1. rewrite Hb.
  replace (item_text match hooked with
                     | Some c => if nonempty c then IText c else IText text
                     | None => IText text
                     end)
    with (match hooked with
          | Some c => if nonempty c then c else text
          | None => text
          end)
    by (destruct hooked as [c|]; [destruct (nonempty c)|]; reflexivity).
  unfold bind at 1.
  destruct (getExecutableScript_proxy scriptSrc
              match hooked with
              | Some c => if nonempty c then c else text
              | None => text
              end proxy (strictGlobal opts) (scopedGlobalVariables opts) w1)
    as [code' Hgen].
  rewrite Hgen in Hcode |- *. injection Hcode as ->.
  unfold bind, eval, host_call, afterExec. cbn. rewrite Ht.
  destruct (evalCode scriptSrc code (Some proxy) (w_heap w1)) as [h' [e|]]; cbn;
    [reflexivity|].
  destruct (o_afterExec opts) as [g|]; unfold ret, host_call; cbn; [|reflexivity].
  destruct (g (IText text) (SStr scriptSrc) h') as [h'' [e|]]; reflexivity.
Qed.

(** C4, as the code has it. For a descriptor [o] flagged async:
    resolution hands back the handle [{ src, async: true, content }] with
    a fresh pending [content]; it leaves the trace and the script cache as
    they were (no fetch was invoked) and only queues a callback for idle
    time, and it is that callback which invokes fetch, when it runs and
    the cache lookup misses. During execution, if [o] is not itself the
    entry, [exec] evaluates nothing: it registers a reaction on [content]
    and returns, and [schedule] goes straight on to resolve or to index
    [i + 1], which is issued next if there is one. The reaction does not
    evaluate while [content] is pending; once [content] is fulfilled it
    evaluates the code made of the downloaded text, with [window.proxy]
    being the sandbox. *)
Theorem async_script_does_not_block (f : fetcher) (o : script_obj) (i : nat)
    (c : pid) (r : jsval -> M unit) (w wx : world) :
  async o = true ->
  scripts !! i = Some (SObj o) ->
  scriptsText !! i = Some (IHandle (Handle (src o) true c)) ->
  externalScript f (SObj o) w
  = (Ok (MValue (IHandle (Handle (src o) true (next_pid w)))),
     set_idle (idle w ++ [IdleTask f (src o) (Opts (crossOrigin o)) (next_pid w)])
       (set_next_pid (S (next_pid w))
          (set_texts (<[next_pid w := Pending]> (texts w)) w)))
  /\ trace (externalScript f (SObj o) w).2 = trace w
  /\ scriptCache (externalScript f (SObj o) w).2 = scriptCache w
  /\ texts (externalScript f (SObj o) w).2 !! next_pid w = Some Pending
  /\ (forall w' fo c' rest,
        idle w' = IdleTask f (src o) fo c' :: rest ->
        scriptCache w' !! src o = None ->
        inherited (src o) = false ->
        trace (run_idle w').2 = (trace w' ++ [EFetch f (src o) fo])%list)
  /\ (strict_eq (SObj o) entry = false ->
      exec entry proxy opts (SObj o) (IHandle (Handle (src o) true c)) r wx
      = (Ok tt, set_reactions (reactions wx ++ [(c, src o)]) wx)
      /\ schedule entry scripts proxy opts scriptsText i r wx
         = (if negb (truthy entry) && Nat.eqb i (length scripts - 1) then r VUndefined
            else schedule entry scripts proxy opts scriptsText (i + 1) r)
             (set_reactions (reactions wx ++ [(c, src o)]) (issued i wx))
      /\ (forall p s', scripts !! (i + 1) = Some s' ->
            exists t',
              trace (schedule entry scripts proxy opts scriptsText i
                       (resolvePromise opts (resolve p)) wx).2
              = (trace wx ++ EIssue i :: EIssue (i + 1) :: t')%list))
  /\ (forall w', texts w' !! c = Some Pending ->
        run_reaction proxy opts (c, src o) w'
        = (Ok tt, set_reactions (reactions w' ++ [(c, src o)]) w'))
  /\ (forall w' text, texts w' !! c = Some (Fulfilled text) ->
        run_reaction proxy opts (c, src o) w'
        = try_catch (geval proxy opts (SStr (src o)) (IText text))
            (fun e => throwNonBlockingError e (async_script_msg (src o))) w')
  /\ (forall w' text hooked w1 code,
        texts w' !! c = Some (Fulfilled text) ->
        beforeExec opts (IText text) (SStr (src o)) w' = (Ok hooked, w1) ->
        (getExecutableScript (src o)
           match hooked with
           | Some c => if nonempty c then c else text
           | None => text
           end proxy (strictGlobal opts) (scopedGlobalVariables opts) w1).1 = Ok code ->
        trace (run_reaction proxy opts (c, src o) w').2
        = (trace w' ++ [EEval (src o) code (Some proxy)])%list).
Proof.
  intros Ha Hi Hit.
  assert (Hres : externalScript f (SObj o) w
    = (Ok (MValue (IHandle (Handle (src o) true (next_pid w)))),
       set_idle (idle w ++ [IdleTask f (src o) (Opts (crossOrigin o)) (next_pid w)])
         (set_next_pid (S (next_pid w))
            (set_texts (<[next_pid w := Pending]> (texts w)) w)))).
  { cbn [externalScript]. rewrite Ha. reflexivity. }
  split; [exact Hres|]. rewrite Hres. cbn [snd].
  split; [reflexivity|]. split; [reflexivity|].
  split; [cbn; apply lookup_insert_eq|].
  split.
  { intros w' fo c' rest Hidle Hmiss _. unfold run_idle. rewrite Hidle.
    unfold bind, fetchScript. cbn. rewrite Hmiss. cbn.
    destruct (texts w' !! next_pid w') as [[| | |]|]; cbn;
      try reflexivity.
    all: rewrite lookup_insert_eq; reflexivity. }
  split.
  { intros He.
    assert (Hexec : forall r0 wy,
      exec entry proxy opts (SObj o) (IHandle (Handle (src o) true c)) r0 wy
      = (Ok tt, set_reactions (reactions wy ++ [(c, src o)]) wy)).
    { intros r0 wy. unfold exec. rewrite He. reflexivity. }
    assert (Hsched : forall r0,
      schedule entry scripts proxy opts scriptsText i r0 wx
      = (if negb (truthy entry) && Nat.eqb i (length scripts - 1) then r0 VUndefined
         else schedule entry scripts proxy opts scriptsText (i + 1) r0)
          (set_reactions (reactions wx ++ [(c, src o)]) (issued i wx))).
    { intros r0. rewrite (schedule_inside _ _ _ _ _ i (SObj o) _ wx Hi), Hit.
      change (default IUndefined (Some (IHandle (Handle (src o) true c))))
        with (IHandle (Handle (src o) true c)).
      unfold bind at 1. unfold bind at 1. cbn [emit modify]. fold (issued i wx).
      rewrite Hexec. reflexivity. }
    split; [apply Hexec|]. split; [apply Hsched|].
    intros p s' Hnext. rewrite Hsched.
    set (rp := resolvePromise opts (resolve p)).
    set (w3 := set_reactions (reactions wx ++ [(c, src o)]) (issued i wx)).
    pose proof (lookup_lt_Some _ _ _ Hnext) as Hlt.
    replace (Nat.eqb i (length scripts - 1)) with false
      by (symmetry; apply Nat.eqb_neq; lia).
    rewrite andb_false_r.
    rewrite (schedule_inside _ _ _ _ _ (i + 1) s' _ w3 Hnext).
    unfold bind at 1. unfold bind at 1. cbn [emit modify]. fold (issued (i + 1) w3).
    set (rest := if negb (truthy entry) && Nat.eqb (i + 1) (length scripts - 1)
                 then rp VUndefined
                 else schedule entry scripts proxy opts scriptsText (i + 1 + 1) rp).
    assert (Hrest : steps extends rest).
    { unfold rest. destruct (negb (truthy entry) && Nat.eqb (i + 1) (length scripts - 1)).
      - eapply steps_weaken; [|apply (resolvePromise_keeps_settled opts p)].
        intros ? ? [_ Hq]. by apply quietly_extends.
      - apply schedule_loop_extends. }
    pose proof (exec_keeps_settled entry proxy opts p s'
                  (default IUndefined (scriptsText !! (i + 1)))
                  (issued (i + 1) w3)) as [_ (t1 & Ht1 & _)].
    fold rp in Ht1.
    destruct (exec entry proxy opts s' (default IUndefined (scriptsText !! (i + 1))) rp
                (issued (i + 1) w3)) as [[[]|e'] w4]; cbn [snd] in Ht1 |- *.
    - destruct (Hrest w4) as [t2 Ht2]. exists (t1 ++ t2)%list.
      rewrite Ht2, Ht1. cbn. by rewrite <- !app_assoc.
    - exists t1. rewrite Ht1. cbn. by rewrite <- !app_assoc. }
  split.
  { intros w' Hp. unfold run_reaction. cbn [fst snd]. rewrite Hp. reflexivity. }
  split.
  { intros w' text Hf. unfold run_reaction. cbn [fst snd]. rewrite Hf. reflexivity. }
  intros w' text hooked w1 code Hf Hb Hcode.
  pose proof (geval_text_trace (src o) text hooked code w' w1 Hb Hcode) as Ht.
  unfold run_reaction. cbn [fst snd]. rewrite Hf. unfold try_catch.
  destruct (geval proxy opts (SStr (src o)) (IText text) w') as [[[]|e] w2];
    cbn [snd] in Ht |- *; exact Ht.
Qed.

End Async.

(** ** The empty script list *)

(** C5, as the code has it. The [execScripts] of a handle, from
    [importHTML] or from [importEntry], called on an empty script list
    returns an execution that is fulfilled already (with [undefined]),
    whatever the entry, and changes nothing else: no fetch is invoked.
    The exported [execScripts] called on an empty list invokes no fetch
    either, but once its callback has run the promise is pending, and
    nothing is queued that could settle it. *)
Theorem empty_script_list `{Host} (entry : jsval) (f : fetcher) (proxy : option gref)
    (strictGlobal : option bool) (opts : exec_opts) (w : world) :
  let done := set_next_pid (S (next_pid w))
                (set_executions (<[next_pid w := Fulfilled VUndefined]> (executions w)) w) in
  importHTML_execScripts entry [] f proxy strictGlobal opts w
  = (Ok (Settled (next_pid w)), done)
  /\ importEntry_execScripts [] f proxy strictGlobal opts w
     = (Ok (Settled (next_pid w)), done)
  /\ executions done !! next_pid w = Some (Fulfilled VUndefined)
  /\ trace done = trace w
  /\ (forall g,
        execScripts entry [] g opts w = (Ok (PendingExec entry [] g opts []), w)
        /\ execScripts_resume (PendingExec entry [] g opts []) w
           = (Ok (Some (next_pid w)), pending_promise w)
        /\ executions (pending_promise w) !! next_pid w = Some Pending
        /\ trace (pending_promise w) = trace w
        /\ timers (pending_promise w) = timers w
        /\ reactions (pending_promise w) = reactions w
        /\ idle (pending_promise w) = idle w).
Proof.
  intros done.
  split; [reflexivity|]. split; [reflexivity|].
  split; [apply lookup_insert_eq|]. split; [reflexivity|].
  intros g. split; [reflexivity|]. split; [reflexivity|].
  split; [apply lookup_insert_eq|]. repeat split; reflexivity.
Qed.

(** ** The properties at work on the demo host *)

(** A config whose [styles] is a string and whose [scripts] is absent. *)
Lemma importEntry_config_error_witness :
  importEntry (EntryConfig (Config Absent (Other (VStr "http://x/a.css")) None))
    None None demo_world
  = (Throw (SyntaxError "entry scripts or styles should be array!"), demo_world).
Proof. apply importEntry_config_error; reflexivity. Defined.

(** After [a.js] at index 0 the scheduler is at index 1. *)
Lemma abc_reaches (entry : jsval) :
  truthy entry = true ->
  (emit (EIssue 0) >>
   exec entry (Sandbox 1) no_opts (SStr "http://x/a.js") (IText "a()")
     (resolvePromise no_opts (resolve 1))) (pending_promise demo_world)
  = (Ok tt, abc_after_a entry) ->
  forall scripts texts,
    scripts !! 0 = Some (SStr "http://x/a.js") ->
    texts !! 0 = Some (IText "a()") ->
    reaches entry scripts (Sandbox 1) no_opts texts (resolvePromise no_opts (resolve 1))
      0 (pending_promise demo_world) 1 (abc_after_a entry).
Proof.
  intros Ht Hrun scripts texts Hs Hx.
  eapply reaches_next; [exact Hs | rewrite Hx; exact Hrun | | apply reaches_here].
  rewrite Ht. reflexivity.
Qed.

(** [a.js], then the entry [bad.js], which throws, then [c.js]: the
    execution is rejected and index 2 is never issued. *)
Lemma entry_error_is_fatal_witness :
  exists w3,
    execScripts_then (VStr "http://x/bad.js") abc_scripts (Sandbox 1) no_opts abc_texts
      demo_world = (Ok 1, w3)
    /\ executions w3 !! 1 = Some (Rejected (Thrown 1))
    /\ issued_below 2 demo_world w3.
Proof.
  destruct (entry_error_is_fatal (VStr "http://x/bad.js") abc_scripts (Sandbox 1)
              no_opts abc_texts 1 (SStr "http://x/bad.js") (Thrown 1) demo_world
              (abc_after_a (VStr "http://x/bad.js")) abc_after_bad_entry)
    as (w3 & Hrun & Hrej & _ & Hissued & _).
  - apply abc_reaches; [reflexivity | vm_compute; reflexivity | reflexivity | reflexivity].
  - reflexivity.
  - reflexivity.
  - intros j sj Hj Hs. destruct j as [|j]; [|lia]. injection Hs as <-. reflexivity.
  - vm_compute. reflexivity.
  - exists w3. split; [exact Hrun|]. split; [exact Hrej | exact Hissued].
Defined.



(** The entry [later.js] exports a promise: the execution follows it, and
    has the outcome the promise reports. *)
Example thenable_export_is_followed :
  readProp (Sandbox 1) "later" (w_heap later_run) = VThenable 5
  /\ executions later_run !! 1 = Some (Following 5)
  /\ executions (reported 1 (Fulfilled (VNum 3)) later_run) !! 1 = Some (Fulfilled (VNum 3))
  /\ executions (reported 1 (Rejected (Thrown 2)) later_run) !! 1
     = Some (Rejected (Thrown 2))
  /\ executions (reported 1 (Rejected (Thrown 2))
                   (reported 1 (Fulfilled (VNum 3)) later_run)) !! 1
     = Some (Fulfilled (VNum 3)).
Proof. vm_compute. repeat split; reflexivity. Qed.

(** No entry; [bad.js] throws at index 1: the error is queued, [c.js] is
    issued next and the execution is fulfilled. *)
Lemma other_error_is_isolated_witness :
  exec VUndefined (Sandbox 1) no_opts (SStr "http://x/bad.js") (IText "b()")
    (resolvePromise no_opts (resolve 1)) (issued 1 (abc_after_a VUndefined))
  = (Ok tt, deferred (Thrown 1) (normal_script_msg (SStr "http://x/bad.js"))
              abc_after_bad_other)
  /\ (exists t',
        trace (schedule VUndefined abc_scripts (Sandbox 1) no_opts abc_texts 1
                 (resolvePromise no_opts (resolve 1)) (abc_after_a VUndefined)).2
        = (trace (deferred (Thrown 1) (normal_script_msg (SStr "http://x/bad.js"))
                    abc_after_bad_other) ++ EIssue 2 :: t')%list)
  /\ (exists w',
        execScripts_then VUndefined abc_scripts (Sandbox 1) no_opts abc_texts demo_world
        = (Ok 1, w')
        /\ executions w' !! 1 = Some (Fulfilled VUndefined)).
Proof.
  destruct (other_error_is_isolated VUndefined abc_scripts (Sandbox 1) no_opts
              abc_texts 1 1 (SStr "http://x/bad.js") "b()" (Thrown 1)
              (abc_after_a VUndefined) abc_after_bad_other)
    as (Hexec & _ & _ & _ & Hnext & _ & _ & _ & _ & Hresolves).
  - reflexivity.
  - reflexivity.
  - reflexivity.
  - vm_compute. reflexivity.
  - split; [exact Hexec|]. split; [apply (Hnext (SStr "http://x/c.js")); reflexivity|].
    apply Hresolves; try reflexivity.
    + repeat constructor.
    + intros Hin. repeat (apply elem_of_cons in Hin as [Hin|Hin]; [discriminate|]).
      inversion Hin.
Defined.

(** The async [lazy.js] at index 0, before the entry [app.js]. *)
Lemma async_script_does_not_block_witness :
  (externalScript defaultFetch (SObj lazy_script) demo_world).1
  = Ok (MValue (IHandle (Handle "http://x/lazy.js" true 1)))
  /\ trace (externalScript defaultFetch (SObj lazy_script) demo_world).2 = []
  /\ exec (VStr "http://x/app.js") (Sandbox 1) no_opts (SObj lazy_script)
       (IHandle (Handle (src lazy_script) true 1))
       (resolvePromise no_opts (resolve 2)) lazy_world
     = (Ok tt, set_reactions (reactions lazy_world ++ [(1, src lazy_script)]) lazy_world)
  /\ schedule (VStr "http://x/app.js") lazy_scripts (Sandbox 1) no_opts lazy_texts 0
       (resolvePromise no_opts (resolve 2)) lazy_world
     = (if negb (truthy (VStr "http://x/app.js"))
           && Nat.eqb 0 (length lazy_scripts - 1)
        then resolvePromise no_opts (resolve 2) VUndefined
        else schedule (VStr "http://x/app.js") lazy_scripts (Sandbox 1) no_opts
               lazy_texts (0 + 1) (resolvePromise no_opts (resolve 2)))
         (set_reactions (reactions lazy_world ++ [(1, src lazy_script)])
            (issued 0 lazy_world)).
Proof.
  destruct (async_script_does_not_block (VStr "http://x/app.js") lazy_scripts
              (Sandbox 1) no_opts lazy_texts defaultFetch lazy_script 0 1
              (resolvePromise no_opts (resolve 2)) demo_world lazy_world)
    as (Hres & Htrace & _ & _ & _ & Hrun & _).
  - reflexivity.
  - reflexivity.
  - reflexivity.
  - destruct (Hrun eq_refl) as (Hexec & Hsched & _).
    split; [rewrite Hres; reflexivity|]. split; [exact Htrace|].
    split; [exact Hexec | exact Hsched].
Defined.

(** C4 as stated fails for an async descriptor that is the entry itself:
    [exec] takes the entry branch, where the code generator asks
    [startsWith] of the descriptor object and throws. Index 1 is never
    issued, nothing is evaluated, no reaction is registered that would run
    [lazy.js] once its content is there, and the execution is rejected. *)
Lemma async_entry_is_not_deferred :
  async lazy_script = true
  /\ lazy_scripts !! 0 = Some (SObj lazy_script)
  /\ lazy_texts !! 0 = Some (IHandle (Handle (src lazy_script) true 1))
  /\ strict_eq (SObj lazy_script) (VObj 7) = true
  /\ (let run := execScripts_then (VObj 7) lazy_scripts (Sandbox 1) no_opts lazy_texts
                   (externalScript defaultFetch (SObj lazy_script) demo_world).2 in
      run.1 = Ok 2
      /\ trace run.2
         = [EIssue 0;
            EConsoleError
              "[import-html-entry]: error occurs while executing entry script [object Object]"]
      /\ reactions run.2 = []
      /\ executions run.2 !! 2
         = Some (Rejected (TypeError "code.startsWith is not a function"))).
Proof. vm_compute. repeat split; reflexivity. Qed.

(** C5 as stated fails for the exported [execScripts]: called on an empty
    list without an entry it invokes no fetch, but when its callback has
    run the promise it made is pending, with nothing queued. *)
Lemma exported_execScripts_empty_list_pending :
  execScripts VUndefined [] Window no_opts demo_world
  = (Ok (PendingExec VUndefined [] Window no_opts []), demo_world)
  /\ (execScripts_resume (PendingExec VUndefined [] Window no_opts []) demo_world).1
     = Ok (Some 1)
  /\ (let w := (execScripts_resume (PendingExec VUndefined [] Window no_opts [])
                  demo_world).2 in
      executions w !! 1 = Some Pending
      /\ trace w = [] /\ timers w = [] /\ reactions w = [] /\ idle w = []).
Proof. vm_compute. repeat split; reflexivity. Qed.

(** ** Template assembler *)

Lemma string_app_cons (x : ascii) (a b : string) :
  String x a +:+ b = String x (a +:+ b).
Proof. reflexivity. Qed.

Lemma string_app_assoc (a b c : string) : (a +:+ b) +:+ c = a +:+ b +:+ c.
Proof.
  induction a as [|x a IH]; [reflexivity|]. rewrite !string_app_cons. by rewrite IH.
Qed.

Lemma string_app_nil_r (a : string) : a +:+ "" = a.
Proof.
  induction a as [|x a IH]; [reflexivity|]. rewrite string_app_cons. by rewrite IH.
Qed.

Lemma string_length_app (a b : string) :
  String.length (a +:+ b) = String.length a + String.length b.
Proof.
  induction a as [|x a IH]; [reflexivity|]. rewrite string_app_cons. cbn. by rewrite IH.
Qed.

Lemma substring_all (s : string) : String.substring 0 (String.length s) s = s.
Proof. induction s as [|x s IH]; [reflexivity|]. cbn. by rewrite IH. Qed.

Lemma substring_head (a b : string) :
  String.substring 0 (String.length a) (a +:+ b) = a.
Proof.
  induction a as [|x a IH]; [destruct b; reflexivity|].
  rewrite string_app_cons. cbn. by rewrite IH.
Qed.

Lemma substring_tail (a b : string) (m : nat) :
  String.substring (String.length a) m (a +:+ b) = String.substring 0 m b.
Proof.
  induction a as [|x a IH]; [reflexivity|]. rewrite string_app_cons. cbn. exact IH.
Qed.

Lemma GetSubstitution_plain (matched before after replacement : string) :
  plain replacement = true ->
  GetSubstitution matched before after replacement = replacement.
Proof.
  induction replacement as [|c tail IH]; [reflexivity|].
  intros Hp. cbn [GetSubstitution]. destruct tail as [|d rest].
  - destruct (Ascii.eqb c "$"); reflexivity.
  - cbn [plain] in Hp. apply andb_true_iff in Hp as [Hc Htail].
    specialize (IH Htail).
    destruct (Ascii.eqb c "$"); [|by rewrite IH].
    cbn in Hc. apply negb_true_iff in Hc.
    destruct (Ascii.eqb d "$"); [discriminate|].
    destruct (Ascii.eqb d "&"); [discriminate|].
    destruct (Ascii.eqb d "`"); [discriminate|].
    destruct (Ascii.eqb d "'"); [discriminate|].
    by rewrite IH.
Qed.

(** Where [pattern] is found first, the text around it is kept and
    [pattern] gives way to the replacement as it is written, if the
    replacement has no dollar pattern. *)
Lemma js_replace_at (a pattern b replacement : string) :
  String.index 0 pattern (a +:+ pattern +:+ b) = Some (String.length a) ->
  plain replacement = true ->
  js_replace (a +:+ pattern +:+ b) pattern replacement = a +:+ replacement +:+ b.
Proof.
  intros Hi Hp. unfold js_replace. rewrite Hi.
  assert (Hafter :
    String.substring (String.length a + String.length pattern)
      (String.length (a +:+ pattern +:+ b) - (String.length a + String.length pattern))
      (a +:+ pattern +:+ b) = b).
  { rewrite !string_length_app.
    replace (String.length a + (String.length pattern + String.length b)
             - (String.length a + String.length pattern))
      with (String.length b) by lia.
    rewrite <- string_app_assoc, <- string_length_app, substring_tail.
    apply substring_all. }
  cbv zeta. rewrite Hafter, substring_head, (GetSubstitution_plain _ _ _ _ Hp).
  reflexivity.
Qed.

Lemma join_cons (x : string) (l : list string) : join (x :: l) = x +:+ join l.
Proof. reflexivity. Qed.

Section AssemblerProofs.
Context `{Host}.

Lemma embed_from_placed (styles styleSheets : list string) (tail : string) :
  forall (i : nat) (done : string),
    placed done i styles styleSheets tail = true ->
    forallb plain (style_blocks i styles styleSheets) = true ->
    embed_from i styles styleSheets
      (done +:+ join (map genLinkReplaceSymbol styles) +:+ tail)
    = done +:+ join (style_blocks i styles styleSheets) +:+ tail.
Proof.
  induction styles as [|s styles IH]; intros i done Hplaced Hplain; [reflexivity|].
  cbn [placed] in Hplaced. apply andb_true_iff in Hplaced as [Hhere Hrest].
  apply bool_decide_eq_true in Hhere.
  cbn [style_blocks forallb] in Hplain. apply andb_true_iff in Hplain as [Hp Hps].
  cbn [embed_from map style_blocks]. rewrite !join_cons, !string_app_assoc.
  rewrite (js_replace_at done _ _ _ Hhere Hp).
  rewrite <- (string_app_assoc done). rewrite (IH _ _ Hrest Hps).
  by rewrite !string_app_assoc.
Qed.

(** X13. In a template that begins with the placeholders of [styles],
    each found first where it was put, and with blocks free of dollar
    patterns, the callback of [getEmbedHTML] puts in the place of every
    placeholder, in order, the inline markup itself or the fetched sheet
    wrapped in [<style>] with its location in a comment; the rest of the
    template is as it was. *)
Theorem getEmbedHTML_then_blocks (styles styleSheets : list string) (tail : string) :
  placed "" 0 styles styleSheets tail = true ->
  forallb plain (style_blocks 0 styles styleSheets) = true ->
  getEmbedHTML_then (join (map genLinkReplaceSymbol styles) +:+ tail) styles styleSheets
  = join (style_blocks 0 styles styleSheets) +:+ tail.
Proof.
  intros Hplaced Hplain. unfold getEmbedHTML_then.
  exact (embed_from_placed styles styleSheets tail 0 "" Hplaced Hplain).
Qed.

Lemma foldr_placeholders (g : string -> string) (l : list string) (tpl : string) :
  foldr (fun x html => g x +:+ html) tpl l = join (map g l) +:+ tpl.
Proof.
  induction l as [|x l IH]; [reflexivity|].
  cbn [foldr map]. rewrite join_cons, string_app_assoc. by rewrite IH.
Qed.

Lemma foldl_placeholders {A} (g : A -> string) (l : list A) (tpl : string) :
  foldl (fun html x => html +:+ g x) tpl l = tpl +:+ join (map g l).
Proof.
  revert tpl. induction l as [|x l IH]; intros tpl.
  - cbn. by rewrite string_app_nil_r.
  - cbn [foldl map]. rewrite IH, join_cons. by rewrite string_app_assoc.
Qed.

(** X12. For a config whose [scripts] and [styles] are arrays or absent
    (one of them an array), the template [importEntry] builds is, passed
    through [getTemplate]: the placeholders of the styles in list order,
    then [html], then the placeholders of the scripts in list order; and
    the styles it starts resolving and the scripts it keeps for the handle
    are those lists. *)
Theorem importEntry_template_layout (scripts : option (list script))
    (styles : option (list string)) (html : option string) (f : option fetcher)
    (getTemplate : option (string -> string)) (w : world) :
  let field_of {A} (o : option (list A)) := from_option Arr Absent o in
  let template :=
    default (fun tpl => tpl) getTemplate
      (join (map genLinkReplaceSymbol (default [] styles))
         +:+ default "" html
         +:+ join (map (fun s => genScriptReplaceSymbol (script_text s))
                    (default [] scripts))) in
  is_Some scripts \/ is_Some styles ->
  exists styleSheets w',
    importEntry (EntryConfig (Config (field_of scripts) (field_of styles) html))
      f getTemplate w
    = (Ok (Embedding template (default [] styles) (default [] scripts) styleSheets), w')
    /\ getExternalStyleSheets (default [] styles) (default defaultFetch f) w
       = (Ok styleSheets, w').
Proof.
  intros field_of template Harr. unfold template, field_of.
  destruct styles as [ss|], scripts as [sc|].
  4: { destruct Harr as [[? ?]|[? ?]]; discriminate. }
  all: unfold importEntry; cbn [c_scripts c_styles c_html isArray orb from_option].
  all: unfold bind, getEmbedHTML, id.
  all: match goal with
       | |- context [getExternalStyleSheets ?l ?g ?w0] =>
           destruct (getExternalStyleSheets_ok l g w0) as (ms & w' & Hms & _)
       end.
  all: exists ms, w'; split; [|exact Hms]; rewrite Hms; unfold ret.
  all: rewrite (foldl_placeholders (fun s => genScriptReplaceSymbol (script_text s))).
  all: rewrite foldr_placeholders, ?string_app_assoc; reflexivity.
Qed.

End AssemblerProofs.

(** ** What executing scripts leaves alone *)

Section RunsProofs.
Context `{Host}.

#[export] Instance fetchless_preorder : PreOrder fetchless.
Proof.
  split.
  - intros w. exists []. split; [by rewrite app_nil_r | constructor].
  - intros w1 w2 w3 (t1 & H1 & Q1) (t2 & H2 & Q2).
    exists (t1 ++ t2)%list. split; [by rewrite H2, H1, app_assoc|].
    by apply Forall_app.
Qed.

#[export] Instance runs_preorder : PreOrder runs.
Proof.
  split.
  - intros w. repeat split; reflexivity.
  - intros w1 w2 w3 (L1 & X1 & F1) (L2 & X2 & F2).
    repeat split; [congruence | congruence | by etrans].
Qed.

#[export] Instance executes_preorder (p : pid) : PreOrder (executes p).
Proof.
  split.
  - intros w. repeat split; reflexivity.
  - intros w1 w2 w3 (L1 & X1 & F1) (L2 & X2 & F2).
    repeat split; [congruence | | by etrans].
    intros q Hq. by rewrite X2, X1.
Qed.

Lemma quietly_fetchless (w w' : world) : quietly w w' -> fetchless w w'.
Proof.
  intros (t & Ht & Hq). exists t. split; [exact Ht|].
  eapply Forall_impl; [exact Hq|]. intros [] Hx; done.
Qed.

Lemma evaluates_runs (w w' : world) : evaluates w w' -> runs w w'.
Proof.
  intros [Hf Hq]. unfold frame in Hf.
  repeat split; [unfold loader_state; congruence | congruence | by apply quietly_fetchless].
Qed.

Lemma runs_executes (p : pid) (w w' : world) : runs w w' -> executes p w w'.
Proof. intros (L & X & F). repeat split; [exact L | by rewrite X | exact F]. Qed.

Lemma runs_same_trace (w w' : world) :
  loader_state w' = loader_state w -> executions w' = executions w ->
  trace w' = trace w -> runs w w'.
Proof.
  intros HL HX HT. repeat split; [exact HL | exact HX|].
  exists []. split; [by rewrite app_nil_r | constructor].
Qed.

Lemma emit_runs (e : event) : is_fetch e = false -> steps runs (emit e).
Proof.
  intros He w. repeat split. exists [e]. split; [reflexivity | by repeat constructor].
Qed.

Lemma geval_runs (proxy : gref) (opts : exec_opts) (scriptSrc : script)
    (inlineScript : item) :
  steps runs (geval proxy opts scriptSrc inlineScript).
Proof. eapply steps_weaken; [apply evaluates_runs | apply geval_evaluates]. Qed.

Lemma host_call_runs (f : heap -> heap * option error) : steps runs (host_call f).
Proof. eapply steps_weaken; [apply evaluates_runs | apply host_call_evaluates]. Qed.

Lemma throwNonBlockingError_runs (e : error) (msg : string) :
  steps runs (throwNonBlockingError e msg).
Proof. intros w. by apply runs_same_trace. Qed.

Lemma resolve_executes (p : pid) (v : jsval) : steps (executes p) (resolve p v).
Proof.
  intros w. unfold resolve, modify. cbn.
  destruct (executions w !! p) as [[| | |]|]; try reflexivity.
  repeat split; [|exists []; split; [by rewrite app_nil_r | constructor]].
  intros q Hq. cbn. by rewrite lookup_insert_ne.
Qed.

Lemma reject_executes (p : pid) (e : error) : steps (executes p) (reject p e).
Proof.
  intros w. unfold reject, modify. cbn.
  destruct (executions w !! p) as [[| | |]|]; try reflexivity.
  repeat split; [|exists []; split; [by rewrite app_nil_r | constructor]].
  intros q Hq. cbn. by rewrite lookup_insert_ne.
Qed.

Lemma resolvePromise_executes (opts : exec_opts) (p : pid) (v : jsval) :
  steps (executes p) (resolvePromise opts (resolve p) v).
Proof.
  unfold resolvePromise. destruct (o_success opts) as [success|].
  - eapply steps_weaken; [apply runs_executes | apply host_call_runs].
  - apply resolve_executes.
Qed.

(** With a [success] callback the promise's own [resolve] is never used. *)
Lemma resolvePromise_success_runs (opts : exec_opts) (r : jsval -> M unit) (v : jsval) :
  is_Some (o_success opts) -> steps runs (resolvePromise opts r v).
Proof.
  intros [success Hs]. unfold resolvePromise. rewrite Hs. apply host_call_runs.
Qed.

Section Exec.
Variable entry : jsval.
Variable scripts : list script.
Variable proxy : gref.
Variable opts : exec_opts.
Variable scriptsText : list item.

(** [exec] respects whatever its [resolve] respects. *)
Lemma exec_steps (R : world -> world -> Prop) `{!PreOrder R}
    (scriptSrc : script) (inlineScript : item) (r : jsval -> M unit) :
  (forall w w', runs w w' -> R w w') ->
  (forall v, steps R (r v)) ->
  steps R (exec entry proxy opts scriptSrc inlineScript r).
Proof.
  intros Hruns Hr. unfold exec. destruct (strict_eq scriptSrc entry).
  - apply steps_bind; [apply _ | |].
    { intros w. apply Hruns. by apply runs_same_trace. }
    intros _. apply steps_try_catch; [apply _ | |].
    + apply steps_bind; [apply _ | |].
      { eapply steps_weaken; [exact Hruns | apply geval_runs]. }
      intros _. apply steps_bind; [apply _ | intros w; reflexivity | exact Hr].
    + intros e. apply steps_bind; [apply _ | | intros; apply steps_throw, _].
      eapply steps_weaken; [exact Hruns | by apply emit_runs].
  - destruct inlineScript as [t|h|].
    + apply steps_try_catch; [apply _ | |].
      * eapply steps_weaken; [exact Hruns|].
        destruct scriptSrc as [s|o]; [apply geval_runs|].
        destruct (nonempty (src o)); apply geval_runs.
      * intros e. eapply steps_weaken; [exact Hruns | apply throwNonBlockingError_runs].
    + destruct (h_async h); [|apply steps_ret, _].
      intros w. apply Hruns. by apply runs_same_trace.
    + apply steps_throw, _.
Qed.

Lemma schedule_loop_steps (R : world -> world -> Prop) `{!PreOrder R}
    (r : jsval -> M unit) (fuel i : nat) :
  (forall w w', runs w w' -> R w w') ->
  (forall v, steps R (r v)) ->
  steps R (schedule_loop entry scripts proxy opts scriptsText fuel i r).
Proof.
  intros Hruns Hr. revert i. induction fuel as [|fuel IH]; intros i; [apply steps_ret, _|].
  cbn [schedule_loop]. destruct (scripts !! i) as [s|]; [|apply steps_ret, _].
  apply steps_bind; [apply _ | |].
  { eapply steps_weaken; [exact Hruns | by apply emit_runs]. }
  intros _. apply steps_bind; [apply _ | by apply exec_steps |].
  intros _. destruct (negb (truthy entry) && Nat.eqb i (length scripts - 1));
    [apply Hr | apply IH].
Qed.

Lemma run_reaction_runs (r : pid * string) : steps runs (run_reaction proxy opts r).
Proof.
  intros w. unfold run_reaction. destruct (texts w !! r.1) as [[|t|e|t]|].
  - by apply runs_same_trace.
  - apply (steps_try_catch runs); [apply geval_runs|].
    intros e. apply throwNonBlockingError_runs.
  - apply throwNonBlockingError_runs.
  - by apply runs_same_trace.
  - by apply runs_same_trace.
Qed.

Lemma run_reactions_runs : steps runs (run_reactions proxy opts).
Proof.
  intros w. unfold run_reactions.
  assert (Hstart : runs w (set_reactions [] w)) by by apply runs_same_trace.
  revert Hstart. generalize (set_reactions [] w). generalize (Ok (A := unit) tt).
  induction (reactions w) as [|r l IH]; intros st w0 Hw0; [exact Hw0|].
  cbn [foldl]. destruct st as [[]|e].
  - pose proof (run_reaction_runs r w0) as Hr.
    destruct (run_reaction proxy opts r w0) as [st' w1]. apply IH.
    cbn in Hr. by etrans.
  - by apply IH.
Qed.

Lemma run_timer_runs : steps runs run_timer.
Proof.
  intros w. unfold run_timer. destruct (timers w) as [|[e msg] rest]; [reflexivity|].
  etrans; [apply (runs_same_trace w (set_timers rest w)); reflexivity|].
  apply (steps_bind runs); [by apply emit_runs | intros; by apply emit_runs].
Qed.

End Exec.

End RunsProofs.

(** ** What every action respects *)

Lemma fetch_count_fetchless (L : string) (t : list event) :
  Forall (fun e => is_fetch e = false) t -> fetch_count L t = 0.
Proof.
  induction 1 as [|e t He _ IH]; [reflexivity|].
  change (e :: t) with ([e] ++ t)%list. rewrite fetch_count_app, IH.
  destruct e; try discriminate; reflexivity.
Qed.

Section Evolution.
Context `{Host}.

#[export] Instance caches_grow_preorder : PreOrder caches_grow.
Proof.
  split.
  - intros w. split; [reflexivity|]. split; reflexivity.
  - intros w1 w2 w3 (A1 & B1 & C1) (A2 & B2 & C2).
    split; [by etrans|]. split; by etrans.
Qed.

#[export] Instance evolves_preorder : PreOrder evolves.
Proof.
  split.
  - intros w. split; [reflexivity|]. split; [lia|]. split; auto.
  - intros w1 w2 w3 (C1 & N1 & X1 & K1) (C2 & N2 & X2 & K2).
    split; [by etrans|]. split; [lia|]. split; [|auto].
    intros q Hq Hown. pose proof (X1 q Hq Hown) as E1.
    rewrite X2; [exact E1 | lia|]. intros t. rewrite E1. apply Hown.
Qed.

Lemma fetchless_count (L : string) (w w' : world) :
  fetchless w w' -> fetch_count L (trace w') = fetch_count L (trace w).
Proof.
  intros (t & Ht & Hf). rewrite Ht, fetch_count_app, (fetch_count_fetchless L t Hf). lia.
Qed.

(** A change that leaves caches, trace and executions alone and does not
    lower [next_pid]. *)
Lemma evolves_quiet (w w' : world) :
  styleCache w' = styleCache w -> scriptCache w' = scriptCache w ->
  embedHTMLCache w' = embedHTMLCache w -> executions w' = executions w ->
  trace w' = trace w -> next_pid w <= next_pid w' ->
  evolves w w'.
Proof.
  intros Hs Hc He Hx Ht Hn. unfold evolves, caches_grow, counted3.
  rewrite Hs, Hc, He, Hx, Ht.
  split; [split; [reflexivity|]; split; reflexivity|]. split; [exact Hn|]. split; auto.
Qed.

Lemma runs_evolves (w w' : world) : runs w w' -> evolves w w'.
Proof.
  intros (HL & HX & HF). unfold loader_state in HL.
  injection HL as Hs Hc He Ht Hn Hi Hfo.
  unfold evolves, caches_grow, counted3. rewrite Hs, Hc, He, HX, Hn.
  split; [split; [reflexivity|]; split; reflexivity|]. split; [lia|]. split; [auto|].
  intros Hk L. rewrite (fetchless_count L w w' HF). apply Hk.
Qed.

Lemma styleSheet_evolves (f : fetcher) (styleLink : string) :
  steps evolves (styleSheet f styleLink).
Proof.
  intros w. unfold styleSheet. destruct (isInlineCode styleLink); [reflexivity|].
  destruct (styleCache w !! styleLink) as [p|] eqn:Hc; [reflexivity|].
  split; [|split; [cbn; lia|]; split; [reflexivity|]].
  { split; [|split]; cbn; try reflexivity; by apply insert_subseteq. }
  intros Hk L. cbn. rewrite fetch_count_app, (cached_insert _ _ _ _ Hc), (Hk L).
  unfold fetch_count. cbn. destruct (styleLink =? L)%string; cbn; lia.
Qed.

Lemma fetchScript_evolves (f : fetcher) (url : string) (o : fetch_opts) :
  steps evolves (fetchScript f url o).
Proof.
  intros w. unfold fetchScript.
  destruct (scriptCache w !! url) as [p|] eqn:Hc; [reflexivity|].
  split; [|split; [cbn; lia|]; split; [reflexivity|]].
  { split; [|split]; cbn; try reflexivity; by apply insert_subseteq. }
  intros Hk L. cbn. rewrite fetch_count_app, (cached_insert _ _ _ _ Hc), (Hk L).
  unfold fetch_count. cbn. destruct (url =? L)%string; cbn; lia.
Qed.

Lemma importHTML_evolves (url : string) (f : fetcher) : steps evolves (importHTML url f).
Proof.
  intros w. unfold importHTML.
  destruct (embedHTMLCache w !! url) as [p|] eqn:Hc; [reflexivity|].
  split; [|split; [cbn; lia|]; split; [reflexivity|]].
  { split; [|split]; cbn; try reflexivity; by apply insert_subseteq. }
  intros Hk L. cbn. rewrite fetch_count_app, (cached_insert _ _ _ _ Hc), (Hk L).
  unfold fetch_count. cbn. destruct (url =? L)%string; cbn; lia.
Qed.

Lemma mapM__steps (R : world -> world -> Prop) `{!PreOrder R} {A B}
    (g : A -> M B) (l : list A) :
  (forall x, steps R (g x)) -> steps R (mapM_ g l).
Proof.
  intros Hg. induction l as [|x l IH]; [apply steps_ret, _|].
  cbn [mapM_]. apply steps_bind; [apply _ | apply Hg |].
  intros y. apply steps_bind; [apply _ | exact IH | intros; apply steps_ret, _].
Qed.

Lemma externalScript_evolves (f : fetcher) (s : script) :
  steps evolves (externalScript f s).
Proof.
  destruct s as [s|o]; cbn [externalScript].
  - destruct (isInlineCode s); [apply steps_ret, _|].
    apply steps_bind; [apply _ | apply fetchScript_evolves | intros; apply steps_ret, _].
  - destruct (async o).
    + intros w. apply evolves_quiet; cbn; try reflexivity. lia.
    + apply steps_bind; [apply _ | apply fetchScript_evolves | intros; apply steps_ret, _].
Qed.

Lemma getExternalScripts_evolves (scripts : list script) (f : fetcher) :
  steps evolves (getExternalScripts scripts f).
Proof. apply mapM__steps; [apply _ | apply externalScript_evolves]. Qed.

Lemma getExternalStyleSheets_evolves (styles : list string) (f : fetcher) :
  steps evolves (getExternalStyleSheets styles f).
Proof. apply mapM__steps; [apply _ | apply styleSheet_evolves]. Qed.

Lemma settle_evolves (p : pid) (o : pstate string) (w : world) : evolves w (settle p o w).
Proof.
  unfold settle. destruct (texts w !! p) as [[| | |]|]; try reflexivity.
  by apply evolves_quiet.
Qed.

Lemma run_idle_evolves : steps evolves run_idle.
Proof.
  intros w. unfold run_idle. destruct (idle w) as [|t rest]; [reflexivity|].
  etrans; [apply (evolves_quiet w (set_idle rest w)); reflexivity|].
  apply (steps_bind evolves); [apply fetchScript_evolves|].
  intros p w1. unfold modify. cbn.
  destruct (texts w1 !! p) as [[| | |]|]; by apply evolves_quiet.
Qed.

Lemma step_evolves (w : world) (o : op) : evolves w (step w o).
Proof.
  destruct o as [styles f|scripts f| |p o]; cbn [step].
  - apply getExternalStyleSheets_evolves.
  - apply getExternalScripts_evolves.
  - apply run_idle_evolves.
  - apply settle_evolves.
Qed.

Lemma importEntry_evolves (entry : entry_arg) (f : option fetcher)
    (getTemplate : option (string -> string)) :
  steps evolves (importEntry entry f getTemplate).
Proof.
  unfold importEntry. destruct entry as [url|c].
  - apply steps_bind; [apply _ | apply importHTML_evolves | intros; apply steps_ret, _].
  - destruct (isArray (c_scripts c) || isArray (c_styles c)); [|apply steps_throw, _].
    destruct (c_styles c), (c_scripts c); try apply steps_throw, _.
    all: apply steps_bind; [apply _ | apply getExternalStyleSheets_evolves
                           | intros; apply steps_ret, _].
Qed.

Lemma Promise_resolve_evolves (v : jsval) : steps evolves (Promise_resolve v).
Proof.
  intros w. unfold Promise_resolve. cbn.
  split; [split; [reflexivity|]; split; reflexivity|]. split; [cbn; lia|].
  split; [|auto].
  intros q Hq _. cbn. apply lookup_insert_ne. lia.
Qed.

Lemma execScripts_evolves (entry : jsval) (scripts : list script) (proxy : gref)
    (opts : exec_opts) :
  steps evolves (execScripts entry scripts proxy opts).
Proof.
  unfold execScripts.
  apply steps_bind; [apply _ | apply getExternalScripts_evolves | intros; apply steps_ret, _].
Qed.

Lemma handle_execScripts_evolves (entry : jsval) (scripts : list script) (f : fetcher)
    (proxy : option gref) (strictGlobal : option bool) (opts : exec_opts) :
  steps evolves (importHTML_execScripts entry scripts f proxy strictGlobal opts)
  /\ steps evolves (importEntry_execScripts scripts f proxy strictGlobal opts).
Proof.
  unfold importHTML_execScripts, importEntry_execScripts. destruct scripts as [|s l].
  - split; (apply steps_bind;
            [apply _ | apply Promise_resolve_evolves | intros; apply steps_ret, _]).
  - split; (apply steps_bind;
            [apply _ | apply execScripts_evolves | intros; apply steps_ret, _]).
Qed.

(** The callback of an execution: what it does, it does for the promise it
    has just made. *)
Lemma execScripts_then_executes (entry : jsval) (scripts : list script) (proxy : gref)
    (opts : exec_opts) (scriptsText : list item) (w : world) :
  executes (next_pid w) (pending_promise w)
    (execScripts_then entry scripts proxy opts scriptsText w).2.
Proof.
  rewrite execScripts_then_unfold.
  pose proof (schedule_loop_steps entry scripts proxy opts scriptsText
                (executes (next_pid w)) (resolvePromise opts (resolve (next_pid w)))
                (length scripts - 0) 0 (runs_executes (next_pid w))
                (resolvePromise_executes opts (next_pid w)) (pending_promise w)) as Hs.
  fold (schedule entry scripts proxy opts scriptsText 0
          (resolvePromise opts (resolve (next_pid w)))) in Hs.
  destruct (schedule entry scripts proxy opts scriptsText 0
              (resolvePromise opts (resolve (next_pid w))) (pending_promise w))
    as [[[]|e] w1]; cbn [snd] in *; [exact Hs|].
  etrans; [exact Hs | apply reject_executes].
Qed.

Lemma execScripts_then_evolves (entry : jsval) (scripts : list script) (proxy : gref)
    (opts : exec_opts) (scriptsText : list item) :
  steps evolves (execScripts_then entry scripts proxy opts scriptsText).
Proof.
  intros w.
  destruct (execScripts_then_executes entry scripts proxy opts scriptsText w)
    as (HL & HX & HF).
  unfold loader_state in HL. cbn in HL. injection HL as Hs Hc He Ht Hn Hi Hfo.
  unfold evolves, caches_grow, counted3. rewrite Hs, Hc, He, Hn.
  split; [split; [reflexivity|]; split; reflexivity|]. split; [lia|]. split.
  - intros q Hq _. rewrite HX by lia. cbn. apply lookup_insert_ne. lia.
  - intros Hk L. rewrite (fetchless_count L _ _ HF). apply Hk.
Qed.

(** A report of a thenable reaches the promise that follows it and nothing
    else. *)
Lemma reported_evolves (p : pid) (o : pstate jsval) (w : world) :
  evolves w (reported p o w).
Proof.
  unfold reported. destruct (executions w !! p) as [[| | |t]|] eqn:Hx; try reflexivity.
  destruct o as [|v|e|t']; try reflexivity.
  all: split; [split; [reflexivity|]; split; reflexivity|].
  all: split; [cbn; lia|]. all: split; [|intros Hk L; apply Hk].
  all: intros q Hq Hown; cbn.
  all: destruct (decide (q = p)) as [->|Hne];
    [exfalso; exact (Hown t Hx) | by apply lookup_insert_ne].
Qed.

Lemma act_evolves (w : world) (a : action) : evolves w (act w a).
Proof.
  destruct a as [o|e f g|e l f g sg opts|l f g sg opts|e l g opts|e l g opts t|g opts|
                 |p o];
    cbn [act].
  - apply step_evolves.
  - apply importEntry_evolves.
  - apply (proj1 (handle_execScripts_evolves e l f g sg opts)).
  - apply (proj2 (handle_execScripts_evolves VUndefined l f g sg opts)).
  - apply execScripts_evolves.
  - apply execScripts_then_evolves.
  - apply runs_evolves, run_reactions_runs.
  - apply runs_evolves, run_timer_runs.
  - apply reported_evolves.
Qed.

Lemma process_evolves (l : list action) (w : world) : evolves w (process l w).
Proof.
  revert w. induction l as [|a l IH]; intros w; [reflexivity|].
  cbn [process foldl]. etrans; [apply act_evolves | apply IH].
Qed.

End Evolution.

Section Lifetime.
Context `{Host}.

Lemma process_caches_grow (l : list action) (w : world) : caches_grow w (process l w).
Proof. by destruct (process_evolves l w) as (Hc & _). Qed.

(** X5. Nothing a caller or the environment does, in any order, drops a
    cache entry or puts another promise in its place: what a cache holds
    for a location it holds for the rest of the process. *)
Theorem cache_entries_persist (l : list action) (w : world) (L : string) (p : pid) :
  (styleCache w !! L = Some p -> styleCache (process l w) !! L = Some p)
  /\ (scriptCache w !! L = Some p -> scriptCache (process l w) !! L = Some p)
  /\ (embedHTMLCache w !! L = Some p -> embedHTMLCache (process l w) !! L = Some p).
Proof.
  destruct (process_caches_grow l w) as (Hs & Hc & He).
  split; [|split]; intros Hp; eapply lookup_weaken; eauto.
Qed.

(** X6. From process start and through every action (loads, resolutions,
    executions, reactions, timers, idle callbacks, network answers), the
    number of fetch invocations for a location is the number of the three
    caches that hold it, so at most three; executing scripts adds none. *)
Theorem fetch_count_is_cache_count (l : list action) (h : heap) (L : string) :
  let w := process l (boot h) in
  fetch_count L (trace w)
  = cached (styleCache w) L + cached (scriptCache w) L + cached (embedHTMLCache w) L
  /\ fetch_count L (trace w) <= 3.
Proof.
  intros w. destruct (process_evolves l (boot h)) as (_ & _ & _ & Hk).
  assert (Hw : counted3 w) by (apply Hk; intros L'; reflexivity).
  split; [apply Hw|]. rewrite (Hw L).
  pose proof (cached_le (styleCache w) L). pose proof (cached_le (scriptCache w) L).
  pose proof (cached_le (embedHTMLCache w) L). lia.
Qed.

(** X14. The callback of [execScripts] always returns its promise. The
    state that promise has when the callback returns is final, unless the
    promise was resolved with a thenable and follows it: no later action
    (an async script finishing, a timer, another execution, a fetch
    settling, a thenable reporting to another promise) changes it, and in
    particular an execution left pending is never settled. A promise that
    follows a thenable takes the outcome the thenable reports. *)
Theorem execution_state_is_final (entry : jsval) (scripts : list script) (proxy : gref)
    (opts : exec_opts) (scriptsText : list item) (w : world) (l : list action) :
  let p := next_pid w in
  let w' := (execScripts_then entry scripts proxy opts scriptsText w).2 in
  (execScripts_then entry scripts proxy opts scriptsText w).1 = Ok p
  /\ (on_its_own w' p -> executions (process l w') !! p = executions w' !! p)
  /\ (forall t o, executions w' !! p = Some (Following t) ->
        executions (reported p o w') !! p
        = Some match o with
               | Fulfilled v => resolved_with v
               | Rejected e => Rejected e
               | _ => Following t
               end).
Proof.
  intros p w'. split.
  { rewrite execScripts_then_unfold.
    destruct (schedule entry scripts proxy opts scriptsText 0
                (resolvePromise opts (resolve (next_pid w))) (pending_promise w))
      as [[[]|e] w1]; reflexivity. }
  split; [|intros t o Hx; by apply reported_following].
  intros Hown.
  destruct (process_evolves l w') as (_ & _ & Hx & _). apply Hx; [|exact Hown].
  destruct (execScripts_then_executes entry scripts proxy opts scriptsText w) as (HL & _).
  fold w' in HL. unfold loader_state in HL. injection HL as _ _ _ _ Hn _ _.
  rewrite Hn. unfold p. cbn. lia.
Qed.

(** X15. Executing scripts never invokes fetch and never touches a cache,
    a promise of text or the idle queue: neither the callback of
    [execScripts], nor a turn of reactions, nor a timer. *)
Theorem execution_never_fetches (entry : jsval) (scripts : list script) (proxy : gref)
    (opts : exec_opts) (scriptsText : list item) (w : world) (L : string) :
  let untouched (w' : world) :=
    styleCache w' = styleCache w /\ scriptCache w' = scriptCache w
    /\ embedHTMLCache w' = embedHTMLCache w /\ texts w' = texts w
    /\ idle w' = idle w /\ fetch_count L (trace w') = fetch_count L (trace w) in
  untouched (execScripts_then entry scripts proxy opts scriptsText w).2
  /\ untouched (run_reactions proxy opts w).2
  /\ untouched (run_timer w).2.
Proof.
  intros untouched.
  assert (Hruns : forall w', runs w w' -> untouched w').
  { intros w' (HL & _ & HF). unfold loader_state in HL.
    injection HL as Hs Hc He Ht _ Hi _.
    unfold untouched. rewrite (fetchless_count L w w' HF). tauto. }
  split; [|split; apply Hruns; [apply run_reactions_runs | apply run_timer_runs]].
  destruct (execScripts_then_executes entry scripts proxy opts scriptsText w)
    as (HL & _ & HF).
  unfold loader_state in HL. cbn in HL. injection HL as Hs Hc He Ht _ Hi _.
  unfold untouched. rewrite (fetchless_count L _ _ HF). tauto.
Qed.

(** X10. Whoever asks for a location first decides the request: the
    promise the first call put in the cache is what every later call gets,
    after whatever happened in between, whatever fetch capability or
    credentials the later call brings, and the later call invokes no fetch
    and changes nothing. This holds for remote styles, for scripts and for
    documents. *)
Theorem first_request_wins (f g : fetcher) (url : string) (o o' : fetch_opts)
    (w : world) (l : list action) :
  (isInlineCode url = false ->
   exists p,
     (styleSheet f url w).1 = Ok (MPromise p)
     /\ styleSheet g url (process l (styleSheet f url w).2)
        = (Ok (MPromise p), process l (styleSheet f url w).2))
  /\ (exists p,
        (fetchScript f url o w).1 = Ok p
        /\ fetchScript g url o' (process l (fetchScript f url o w).2)
           = (Ok p, process l (fetchScript f url o w).2))
  /\ (exists p,
        (importHTML url f w).1 = Ok p
        /\ importHTML url g (process l (importHTML url f w).2)
           = (Ok p, process l (importHTML url f w).2)).
Proof.
  split; [|split].
  - intros Hin.
    assert (Hfirst : exists p, (styleSheet f url w).1 = Ok (MPromise p)
                               /\ styleCache (styleSheet f url w).2 !! url = Some p).
    { unfold styleSheet. rewrite Hin.
      destruct (styleCache w !! url) as [p|] eqn:Hc; [by exists p|].
      exists (next_pid w). split; [reflexivity|]. cbn. apply lookup_insert_eq. }
    destruct Hfirst as (p & Hres & Hc). exists p. split; [exact Hres|].
    destruct (process_caches_grow l (styleSheet f url w).2) as (Hgrow & _ & _).
    apply (lookup_weaken _ _ _ _ Hc) in Hgrow.
    unfold styleSheet at 1. by rewrite Hin, Hgrow.
  - assert (Hfirst : exists p, (fetchScript f url o w).1 = Ok p
                               /\ scriptCache (fetchScript f url o w).2 !! url = Some p).
    { unfold fetchScript.
      destruct (scriptCache w !! url) as [p|] eqn:Hc; [by exists p|].
      exists (next_pid w). split; [reflexivity|]. cbn. apply lookup_insert_eq. }
    destruct Hfirst as (p & Hres & Hc). exists p. split; [exact Hres|].
    destruct (process_caches_grow l (fetchScript f url o w).2) as (_ & Hgrow & _).
    apply (lookup_weaken _ _ _ _ Hc) in Hgrow.
    unfold fetchScript at 1. by rewrite Hgrow.
  - assert (Hfirst : exists p, (importHTML url f w).1 = Ok p
                               /\ embedHTMLCache (importHTML url f w).2 !! url = Some p).
    { unfold importHTML.
      destruct (embedHTMLCache w !! url) as [p|] eqn:Hc; [by exists p|].
      exists (next_pid w). split; [reflexivity|]. cbn. apply lookup_insert_eq. }
    destruct Hfirst as (p & Hres & Hc). exists p. split; [exact Hres|].
    destruct (process_caches_grow l (importHTML url f w).2) as (_ & _ & Hgrow).
    apply (lookup_weaken _ _ _ _ Hc) in Hgrow.
    unfold importHTML at 1. by rewrite Hgrow.
Qed.

End Lifetime.

(** ** More on the scheduler *)

Lemma issues_app (t1 t2 : list event) : issues (t1 ++ t2) = (issues t1 ++ issues t2)%list.
Proof. apply omap_app. Qed.

Lemma issues_quiet (t : list event) : Forall quiet t -> issues t = [].
Proof.
  induction 1 as [|e t He _ IH]; [reflexivity|].
  unfold issues in *. cbn [omap]. destruct e; try destruct He; cbn; exact IH.
Qed.

Section Scheduler.
Context `{Host}.
Variable entry : jsval.
Variable scripts : list script.
Variable proxy : gref.
Variable opts : exec_opts.
Variable scriptsText : list item.

#[local] Abbreviation scheduleX := (schedule entry scripts proxy opts scriptsText).

(** [schedule] at an index inside the array, by what [exec] did. *)
Lemma schedule_inside_by (i : nat) (s : script) (r : jsval -> M unit)
    (res : res unit) (w w1 : world) :
  scripts !! i = Some s ->
  exec entry proxy opts s (default IUndefined (scriptsText !! i)) r (issued i w)
  = (res, w1) ->
  scheduleX i r w
  = match res with
    | Ok _ =>
        (if negb (truthy entry) && Nat.eqb i (length scripts - 1) then r VUndefined
         else scheduleX (i + 1) r) w1
    | Throw e => (Throw e, w1)
    end.
Proof.
  intros Hs Hexec. rewrite (schedule_inside _ _ _ _ _ i s _ w Hs).
  unfold bind at 1. unfold bind at 1. cbn [emit modify]. fold (issued i w).
  rewrite Hexec. reflexivity.
Qed.

Lemma schedule_issues_from (p : pid) (n : nat) :
  forall (i : nat) (w : world),
    i + n = length scripts ->
    exists t k,
      trace (scheduleX i (resolvePromise opts (resolve p)) w).2 = (trace w ++ t)%list
      /\ issues t = seq i k
      /\ i + k <= length scripts
      /\ ((scheduleX i (resolvePromise opts (resolve p)) w).1 = Ok tt ->
          i + k = length scripts).
Proof.
  induction n as [|n IH]; intros i w Hi.
  - rewrite schedule_outside by (apply lookup_ge_None; lia).
    exists [], 0. cbn. rewrite app_nil_r. repeat split; lia.
  - destruct (lookup_lt_is_Some_2 scripts i) as [s Hs]; [lia|].
    pose proof (exec_keeps_settled entry proxy opts p s
                  (default IUndefined (scriptsText !! i)) (issued i w))
      as [_ (t1 & Ht1 & Hq1)].
    destruct (exec entry proxy opts s (default IUndefined (scriptsText !! i))
                (resolvePromise opts (resolve p)) (issued i w)) as [[[]|e] w1] eqn:Hexec;
      cbn [snd] in Ht1; rewrite (schedule_inside_by i s _ _ w w1 Hs Hexec).
    2: { exists (EIssue i :: t1), 1. cbn [fst snd].
         split; [rewrite Ht1; cbn; by rewrite <- app_assoc|].
         split; [change (EIssue i :: t1) with ([EIssue i] ++ t1)%list;
                 rewrite issues_app, (issues_quiet t1 Hq1); reflexivity|].
         split; [lia | discriminate]. }
    destruct (negb (truthy entry) && Nat.eqb i (length scripts - 1)) eqn:Hlast.
    + apply andb_true_iff in Hlast as [_ Hlast]. apply Nat.eqb_eq in Hlast.
      destruct (resolvePromise_keeps_settled opts p VUndefined w1) as [_ (t2 & Ht2 & Hq2)].
      exists (EIssue i :: t1 ++ t2)%list, 1.
      split; [rewrite Ht2, Ht1; cbn; by rewrite <- !app_assoc|].
      split; [|lia].
      change (EIssue i :: t1 ++ t2)%list with ([EIssue i] ++ t1 ++ t2)%list.
      rewrite !issues_app, (issues_quiet t1 Hq1), (issues_quiet t2 Hq2). reflexivity.
    + destruct (IH (i + 1) w1) as (t2 & k & Ht2 & Hk & Hle & Hok); [lia|].
      exists (EIssue i :: t1 ++ t2)%list, (S k).
      split; [rewrite Ht2, Ht1; cbn; by rewrite <- !app_assoc|].
      split.
      { change (EIssue i :: t1 ++ t2)%list with ([EIssue i] ++ t1 ++ t2)%list.
        rewrite !issues_app, (issues_quiet t1 Hq1), Hk. cbn.
        by replace (i + 1) with (S i) by lia. }
      split; [lia|]. intros Hres. specialize (Hok Hres). lia.
Qed.

(** X1. [schedule(0, ...)] issues the scripts in the order of the list,
    without a gap and without a repeat: the indices handed to [exec] are
    0, 1, ..., k - 1 for some k up to the length of the list, and when
    [schedule] returns without throwing every index was issued. *)
Theorem issuance_is_document_order (p : pid) (w : world) :
  exists t k,
    trace (scheduleX 0 (resolvePromise opts (resolve p)) w).2 = (trace w ++ t)%list
    /\ issues t = seq 0 k
    /\ k <= length scripts
    /\ ((scheduleX 0 (resolvePromise opts (resolve p)) w).1 = Ok tt ->
        k = length scripts).
Proof.
  destruct (schedule_issues_from p (length scripts) 0 w) as (t & k & Ht & Hk & Hle & Hok);
    [lia|].
  exists t, k. repeat split; [exact Ht | exact Hk | lia | intros Hres; by apply Hok].
Qed.

Lemma schedule_unmatched (r : jsval -> M unit) (n : nat) :
  truthy entry = true ->
  Forall (fun s => strict_eq s entry = false) scripts ->
  length scriptsText = length scripts ->
  IUndefined ∉ scriptsText ->
  forall (i : nat) (w : world),
    i + n = length scripts ->
    (scheduleX i r w).1 = Ok tt
    /\ executions (scheduleX i r w).2 = executions w.
Proof.
  intros Htruthy Hnone Hlen Hdef. induction n as [|n IH]; intros i w Hi.
  - rewrite schedule_outside by (apply lookup_ge_None; lia). split; reflexivity.
  - destruct (lookup_lt_is_Some_2 scripts i) as [s Hs]; [lia|].
    destruct (lookup_lt_is_Some_2 scriptsText i) as [it Hit]; [lia|].
    assert (He : strict_eq s entry = false).
    { rewrite Forall_forall in Hnone. apply Hnone. by eapply list_elem_of_lookup_2. }
    assert (Hit' : it <> IUndefined).
    { intros ->. apply Hdef. by eapply list_elem_of_lookup_2. }
    pose proof (exec_other_returns entry proxy opts s it r (issued i w) He Hit') as Hok.
    pose proof (exec_other_keeps entry proxy opts s it r He (issued i w)) as (Hx & _).
    destruct (exec entry proxy opts s it r (issued i w)) as [res w1] eqn:Hexec.
    cbn in Hok, Hx. subst res.
    rewrite (schedule_inside_by i s r (Ok tt) w w1 Hs)
      by (rewrite Hit; exact Hexec).
    rewrite Htruthy. cbn [negb andb].
    destruct (IH (i + 1) w1) as [Hres Hkeep]; [lia|].
    split; [exact Hres | by rewrite Hkeep].
Qed.

(** X2. An entry identifier that is given (truthy) but matches none of the
    scripts: every script is issued and run as a normal one, nothing
    rejects and nothing resolves. The execution is pending when the
    callback returns and stays pending whatever happens later. *)
Theorem unmatched_entry_never_settles (w : world) (l : list action) :
  let w' := (execScripts_then entry scripts proxy opts scriptsText w).2 in
  truthy entry = true ->
  Forall (fun s => strict_eq s entry = false) scripts ->
  length scriptsText = length scripts ->
  IUndefined ∉ scriptsText ->
  executions w' !! next_pid w = Some Pending
  /\ executions (process l w') !! next_pid w = Some Pending.
Proof.
  intros w' Htruthy Hnone Hlen Hdef.
  assert (Hpend : executions w' !! next_pid w = Some Pending).
  { unfold w'. rewrite execScripts_then_unfold.
    destruct (schedule_unmatched (resolvePromise opts (resolve (next_pid w)))
                (length scripts) Htruthy Hnone Hlen Hdef 0 (pending_promise w))
      as [Hres Hkeep]; [lia|].
    destruct (scheduleX 0 (resolvePromise opts (resolve (next_pid w)))
                (pending_promise w)) as [res w1].
    cbn in Hres, Hkeep. subst res. cbn. rewrite Hkeep. cbn. apply lookup_insert_eq. }
  split; [exact Hpend|]. rewrite <- Hpend.
  destruct (process_evolves l w') as (_ & _ & Hx & _).
  apply Hx; [|intros t Ht; discriminate (eq_trans (eq_sym Ht) Hpend)].
  destruct (execScripts_then_executes entry scripts proxy opts scriptsText w) as (HL & _).
  fold w' in HL. unfold loader_state in HL. injection HL as _ _ _ _ Hn _ _.
  rewrite Hn. cbn. lia.
Qed.

(** X3. With a [success] callback in the options the callback stands in
    for the promise's [resolve], so the promise [execScripts] returns is
    never fulfilled: it is pending when the run returns and rejected with
    the error when the run throws. *)
Theorem success_replaces_resolve (w : world) :
  is_Some (o_success opts) ->
  executions (execScripts_then entry scripts proxy opts scriptsText w).2 !! next_pid w
  = match (scheduleX 0 (resolvePromise opts (resolve (next_pid w)))
             (pending_promise w)).1 with
    | Ok _ => Some Pending
    | Throw e => Some (Rejected e)
    end.
Proof.
  intros Hs. rewrite execScripts_then_unfold.
  pose proof (schedule_loop_steps entry scripts proxy opts scriptsText runs
                (resolvePromise opts (resolve (next_pid w))) (length scripts - 0) 0
                (fun _ _ Hr => Hr)
                (fun v => resolvePromise_success_runs opts (resolve (next_pid w)) v Hs)
                (pending_promise w)) as (_ & Hx & _).
  fold (scheduleX 0 (resolvePromise opts (resolve (next_pid w)))) in Hx.
  destruct (scheduleX 0 (resolvePromise opts (resolve (next_pid w))) (pending_promise w))
    as [[[]|e] w1]; cbn [fst snd] in *.
  - rewrite Hx. cbn. apply lookup_insert_eq.
  - assert (Hp : executions w1 !! next_pid w = Some Pending).
    { rewrite Hx. cbn. apply lookup_insert_eq. }
    unfold reject, modify. cbn. rewrite Hp. cbn. apply lookup_insert_eq.
Qed.

End Scheduler.

(** ** Resolving a list twice *)

Section Answers.
Context `{Host}.

#[export] Instance resolving_preorder : PreOrder resolving.
Proof.
  split.
  - intros w. split; [reflexivity|]. split; [lia|]. split; [auto|].
    exists []. by rewrite app_nil_r.
  - intros w1 w2 w3 (C1 & N1 & T1 & [m1 I1]) (C2 & N2 & T2 & [m2 I2]).
    split; [by etrans|]. split; [lia|]. split.
    + intros q Hq. rewrite T2 by lia. by apply T1.
    + exists (m1 ++ m2)%list. by rewrite I2, I1, app_assoc.
Qed.

Lemma styleSheet_resolving (f : fetcher) (styleLink : string) :
  steps resolving (styleSheet f styleLink).
Proof.
  intros w. unfold styleSheet. destruct (isInlineCode styleLink); [reflexivity|].
  destruct (styleCache w !! styleLink) as [p|] eqn:Hc; [reflexivity|].
  split; [|split; [cbn; lia|]; split].
  - split; [|split]; cbn; try reflexivity; by apply insert_subseteq.
  - intros q Hq. cbn. apply lookup_insert_ne. lia.
  - exists []. cbn. by rewrite app_nil_r.
Qed.

Lemma fetchScript_resolving (f : fetcher) (url : string) (o : fetch_opts) :
  steps resolving (fetchScript f url o).
Proof.
  intros w. unfold fetchScript.
  destruct (scriptCache w !! url) as [p|] eqn:Hc; [reflexivity|].
  split; [|split; [cbn; lia|]; split].
  - split; [|split]; cbn; try reflexivity; by apply insert_subseteq.
  - intros q Hq. cbn. apply lookup_insert_ne. lia.
  - exists []. cbn. by rewrite app_nil_r.
Qed.

Lemma externalScript_resolving (f : fetcher) (s : script) :
  steps resolving (externalScript f s).
Proof.
  destruct s as [s|o]; cbn [externalScript].
  - destruct (isInlineCode s); [apply steps_ret, _|].
    apply steps_bind; [apply _ | apply fetchScript_resolving | intros; apply steps_ret, _].
  - destruct (async o).
    + intros w. split; [split; [|split]; cbn; reflexivity|]. split; [cbn; lia|]. split.
      * intros q Hq. cbn. apply lookup_insert_ne. lia.
      * cbn. eauto.
    + apply steps_bind; [apply _ | apply fetchScript_resolving | intros; apply steps_ret, _].
Qed.

Lemma style_answer_later (w w' : world) (styleLink : string) (m : mapped) :
  resolving w w' -> style_answer w styleLink m -> style_answer w' styleLink m.
Proof.
  intros ((Hs & _ & _) & _). unfold style_answer.
  destruct (isInlineCode styleLink); [done|].
  intros (p & -> & Hp). exists p. split; [done|]. by eapply lookup_weaken.
Qed.

Lemma script_answer_later (f : fetcher) (w w' : world) (s : script) (m : mapped) :
  resolving w w' -> script_answer f w s m -> script_answer f w' s m.
Proof.
  intros ((_ & Hc & _) & Hn & Ht & [more Hi]). unfold script_answer.
  destruct s as [s|o].
  - destruct (isInlineCode s); [done|].
    intros (p & -> & Hp). exists p. split; [done|]. by eapply lookup_weaken.
  - destruct (async o).
    + intros (c & -> & Hlt & Hp & Hin). exists c.
      split; [done|]. split; [lia|]. split; [by rewrite Ht|].
      rewrite Hi. apply elem_of_app. by left.
    + intros (p & -> & Hp). exists p. split; [done|]. by eapply lookup_weaken.
Qed.

Lemma styleSheet_answers (f : fetcher) (styleLink : string) (w : world) :
  exists m, (styleSheet f styleLink w).1 = Ok m
            /\ style_answer (styleSheet f styleLink w).2 styleLink m.
Proof.
  unfold styleSheet, style_answer. destruct (isInlineCode styleLink); [by eexists|].
  destruct (styleCache w !! styleLink) as [p|] eqn:Hc; [by eauto|].
  eexists. split; [reflexivity|]. eexists. split; [reflexivity|].
  cbn. apply lookup_insert_eq.
Qed.

Lemma externalScript_answers (f : fetcher) (s : script) (w : world) :
  exists m, (externalScript f s w).1 = Ok m
            /\ script_answer f (externalScript f s w).2 s m.
Proof.
  assert (Hfetch : forall url o,
    exists p, fetchScript f url o w = (Ok p, (fetchScript f url o w).2)
              /\ scriptCache (fetchScript f url o w).2 !! url = Some p).
  { intros url o. unfold fetchScript.
    destruct (scriptCache w !! url) as [p|] eqn:Hc; [by eauto|].
    eexists. split; [reflexivity|]. cbn. apply lookup_insert_eq. }
  destruct s as [s|o]; cbn [externalScript script_answer].
  - destruct (isInlineCode s); [by eexists|].
    destruct (Hfetch s NoOpts) as (p & Hres & Hp). unfold bind. rewrite Hres.
    exists (MPromise p). split; [reflexivity|]. by exists p.
  - destruct (async o).
    + eexists. split; [reflexivity|]. exists (next_pid w).
      split; [reflexivity|]. cbn. split; [lia|]. split; [apply lookup_insert_eq|].
      apply elem_of_app. right. by apply list_elem_of_singleton.
    + destruct (Hfetch (src o) (Opts (crossOrigin o))) as (p & Hres & Hp).
      unfold bind. rewrite Hres.
      exists (MPromise p). split; [reflexivity|]. by exists p.
Qed.

(** What a mapped list answers, element by element. *)
Lemma mapM__answers {A} (g : A -> M mapped) (answer : world -> A -> mapped -> Prop)
    (l : list A) :
  (forall x, steps resolving (g x)) ->
  (forall w w' x m, resolving w w' -> answer w x m -> answer w' x m) ->
  (forall x w, exists m, (g x w).1 = Ok m /\ answer (g x w).2 x m) ->
  forall w, exists ms, (mapM_ g l w).1 = Ok ms /\ Forall2 (answer (mapM_ g l w).2) l ms.
Proof.
  intros Hsteps Hlater Hans. induction l as [|x l IH]; intros w.
  - exists []. split; [reflexivity | constructor].
  - cbn [mapM_]. unfold bind.
    destruct (Hans x w) as (m & Hm & Hx).
    destruct (g x w) as [res w1]. cbn in Hm, Hx. subst res.
    destruct (IH w1) as (ms & Hms & Hall).
    pose proof (mapM__steps resolving g l Hsteps w1) as Hgo.
    destruct (mapM_ g l w1) as [res w2]. cbn in Hms, Hall, Hgo. subst res.
    exists (m :: ms). split; [reflexivity|]. constructor; [|exact Hall].
    by apply (Hlater w1).
Qed.

Lemma getExternalStyleSheets_replay (g : fetcher) (styles : list string)
    (ms : list mapped) (w : world) :
  Forall2 (style_answer w) styles ms ->
  getExternalStyleSheets styles g w = (Ok ms, w).
Proof.
  induction 1 as [|s m styles ms Hs _ IH]; [reflexivity|].
  unfold getExternalStyleSheets in *. cbn [mapM_]. unfold bind at 1.
  assert (Hone : styleSheet g s w = (Ok m, w)).
  { unfold styleSheet, style_answer in *. destruct (isInlineCode s); [by subst|].
    destruct Hs as (p & -> & ->). reflexivity. }
  rewrite Hone. unfold bind. rewrite IH. reflexivity.
Qed.

(** X7. Resolving the same list of styles a second time, with whatever
    fetch capability, gives the very same promises and inline texts and
    changes nothing: no fetch, no cache entry, no new promise. *)
Theorem getExternalStyleSheets_again (styles : list string) (f g : fetcher) (w : world) :
  getExternalStyleSheets styles g (getExternalStyleSheets styles f w).2
  = getExternalStyleSheets styles f w.
Proof.
  destruct (mapM__answers (styleSheet f) style_answer styles
              (styleSheet_resolving f) style_answer_later (styleSheet_answers f) w)
    as (ms & Hms & Hall).
  fold (getExternalStyleSheets styles f) in Hms, Hall.
  rewrite (getExternalStyleSheets_replay g styles ms _ Hall).
  destruct (getExternalStyleSheets styles f w) as [res w']. cbn in Hms. by subst res.
Qed.

(** X8. [getExternalScripts] answers every descriptor, in order, when no
    location is one of the names every object inherits: inline code at
    once; for a remote script the promise the script cache now holds for
    its location; for an async descriptor a handle with its [src],
    [async: true] and a [content] that is pending, the fetch for it
    waiting in the idle queue with the caller's fetch capability and the
    credentials its [crossOrigin] asks for. *)
Theorem getExternalScripts_answers (scripts : list script) (f : fetcher) (w : world) :
  Forall (fun s => inherited (location s) = false) scripts ->
  exists ms,
    (getExternalScripts scripts f w).1 = Ok ms
    /\ length ms = length scripts
    /\ Forall2 (script_answer f (getExternalScripts scripts f w).2) scripts ms.
Proof.
  intros _.
  destruct (mapM__answers (externalScript f) (script_answer f) scripts
              (externalScript_resolving f) (script_answer_later f)
              (externalScript_answers f) w) as (ms & Hms & Hall).
  exists ms. split; [exact Hms|]. split; [|exact Hall].
  symmetry. by eapply Forall2_length.
Qed.

Lemma externalScript_cached (f g : fetcher) (s : script) (m : mapped) (w0 w : world) :
  script_answer f w0 s m ->
  scriptCache w = scriptCache w0 ->
  exists m', (externalScript g s w).1 = Ok m'
             /\ same_answer m m'
             /\ scriptCache (externalScript g s w).2 = scriptCache w0
             /\ trace (externalScript g s w).2 = trace w.
Proof.
  intros Hans Hc. destruct s as [s|o]; cbn [externalScript script_answer] in *.
  - destruct (isInlineCode s); [subst m; by eexists|].
    destruct Hans as (p & -> & Hp). unfold bind, fetchScript. rewrite Hc, Hp.
    by exists (MPromise p).
  - destruct (async o).
    + destruct Hans as (c & -> & _). eexists. split; [reflexivity|].
      split; [|split; [exact Hc | reflexivity]].
      eexists. split; [reflexivity|]. split; reflexivity.
    + destruct Hans as (p & -> & Hp). unfold bind, fetchScript. rewrite Hc, Hp.
      by exists (MPromise p).
Qed.

Lemma getExternalScripts_replay (f g : fetcher) (scripts : list script)
    (ms : list mapped) (w0 : world) :
  Forall2 (script_answer f w0) scripts ms ->
  forall w, scriptCache w = scriptCache w0 ->
    exists ms', (getExternalScripts scripts g w).1 = Ok ms'
                /\ Forall2 same_answer ms ms'
                /\ scriptCache (getExternalScripts scripts g w).2 = scriptCache w0
                /\ trace (getExternalScripts scripts g w).2 = trace w.
Proof.
  induction 1 as [|s m scripts ms Hs _ IH]; intros w Hc.
  - exists []. repeat split; [constructor | exact Hc].
  - unfold getExternalScripts in *. cbn [mapM_]. unfold bind.
    destruct (externalScript_cached f g s m w0 w Hs Hc) as (m' & Hm & Hsame & Hc1 & Ht1).
    destruct (externalScript g s w) as [res w1]. cbn in Hm, Hc1, Ht1. subst res.
    destruct (IH w1 Hc1) as (ms' & Hms & Hall & Hc2 & Ht2).
    destruct (mapM_ (externalScript g) scripts w1) as [res w2].
    cbn in Hms, Hc2, Ht2. subst res.
    exists (m' :: ms'). cbn. split; [reflexivity|].
    split; [by constructor|]. split; [exact Hc2 | congruence].
Qed.

(** X9. Resolving the same list of scripts a second time, with whatever
    fetch capability, invokes no fetch and leaves the script cache as it
    is; the second answer has the same inline texts and the same promises
    as the first, and for async descriptors new handles of the same
    location. *)
Theorem getExternalScripts_again (scripts : list script) (f g : fetcher) (w : world) :
  let first := getExternalScripts scripts f w in
  let second := getExternalScripts scripts g first.2 in
  exists ms1 ms2,
    first.1 = Ok ms1 /\ second.1 = Ok ms2
    /\ Forall2 same_answer ms1 ms2
    /\ trace second.2 = trace first.2
    /\ scriptCache second.2 = scriptCache first.2.
Proof.
  intros first second.
  destruct (mapM__answers (externalScript f) (script_answer f) scripts
              (externalScript_resolving f) (script_answer_later f)
              (externalScript_answers f) w) as (ms1 & Hms1 & Hall).
  fold (getExternalScripts scripts f) in Hms1, Hall. fold first in Hms1, Hall.
  destruct (getExternalScripts_replay f g scripts ms1 first.2 Hall first.2 eq_refl)
    as (ms2 & Hms2 & Hsame & Hc & Ht).
  exists ms1, ms2. by repeat split.
Qed.

End Answers.

(** ** An entry that is a descriptor object *)

Section ObjectEntry.
Context `{Host}.
Variable entry : jsval.
Variable scripts : list script.
Variable proxy : gref.
Variable opts : exec_opts.
Variable scriptsText : list item.

Lemma geval_object (o : script_obj) (inlineScript : item) (w : world) :
  exists e w',
    geval proxy opts (SObj o) inlineScript w = (Throw e, w')
    /\ trace w' = trace w /\ w_proxy w' = w_proxy w
    /\ (o_beforeExec opts = None -> e = TypeError "code.startsWith is not a function").
Proof.
  unfold geval, bind, beforeExec. destruct (o_beforeExec opts) as [f|].
  - destruct (f inlineScript (SObj o) (w_heap w)) as [h [hooked|e]].
    + eexists _, _. split; [reflexivity|]. split; [reflexivity|].
      split; [reflexivity | discriminate].
    + eexists _, _. split; [reflexivity|]. split; [reflexivity|].
      split; [reflexivity | discriminate].
  - eexists _, _. split; [reflexivity|]. split; [reflexivity|].
    split; [reflexivity | done].
Qed.

(** X4. A descriptor object cannot be a working entry: when the script
    that is the entry identifier is an object, [exec] throws before
    anything is evaluated (the generator asks [startsWith] of its
    location argument, which is the object), the error is logged and
    thrown on, and [schedule] stops at that index. Without a [beforeExec]
    hook the error is that TypeError. *)
Theorem object_entry_is_fatal (o : script_obj) (i : nat) (r : jsval -> M unit)
    (w : world) :
  strict_eq (SObj o) entry = true ->
  scripts !! i = Some (SObj o) ->
  exists e w',
    schedule entry scripts proxy opts scriptsText i r w = (Throw e, w')
    /\ (o_beforeExec opts = None -> e = TypeError "code.startsWith is not a function")
    /\ trace w'
       = (trace w ++ [EIssue i;
                      EConsoleError
                        "[import-html-entry]: error occurs while executing entry script [object Object]"])%list
    /\ w_proxy w' = w_proxy w.
Proof.
  intros He Hi.
  destruct (geval_object o (default IUndefined (scriptsText !! i))
              (noted proxy opts (issued i w))) as (e & w2 & Hg & Ht & Hp & Herr).
  pose proof (exec_entry_throws entry proxy opts (SObj o) _ r e (issued i w) w2 He Hg)
    as Hexec.
  exists e. eexists. split.
  { rewrite (schedule_inside_by entry scripts proxy opts scriptsText i (SObj o) r
               (Throw e) w _ Hi Hexec). reflexivity. }
  split; [exact Herr|]. cbn. rewrite Ht, Hp. cbn. split; [|reflexivity].
  by rewrite <- app_assoc.
Qed.

End ObjectEntry.

(** ** The content of a handle *)

Lemma settle_one_other (c q : pid) (o : pstate string) (t : gmap pid (pstate string)) :
  q <> c -> settle_one c o t !! q = t !! q.
Proof.
  intros Hq. unfold settle_one. destruct (t !! c) as [[| | |]|]; try done.
  by apply lookup_insert_ne.
Qed.

Lemma settle_one_here (c : pid) (o : pstate string) (t : gmap pid (pstate string)) :
  t !! c = Some Pending \/ t !! c = Some o -> settle_one c o t !! c = Some o.
Proof.
  intros [Hc|Hc]; unfold settle_one; rewrite Hc.
  - apply lookup_insert_eq.
  - destruct o; [apply lookup_insert_eq | exact Hc | exact Hc | exact Hc].
Qed.

Lemma settle_followers (cs : list pid) (o : pstate string)
    (t : gmap pid (pstate string)) (c : pid) :
  t !! c = Some Pending \/ t !! c = Some o ->
  c ∈ cs ->
  foldr (fun c t => settle_one c o t) t cs !! c = Some o.
Proof.
  intros Hc. induction cs as [|c' cs IH]; intros Hin; [inversion Hin|].
  cbn [foldr].
  assert (Hpre : foldr (fun c t => settle_one c o t) t cs !! c = Some Pending
                 \/ foldr (fun c t => settle_one c o t) t cs !! c = Some o).
  { clear IH Hin. induction cs as [|c'' cs IH']; [exact Hc|]. cbn [foldr].
    destruct (decide (c = c'')) as [<-|Hne].
    - right. by apply settle_one_here.
    - by rewrite settle_one_other. }
  destruct (decide (c = c')) as [<-|Hne].
  - by apply settle_one_here.
  - rewrite settle_one_other by done. apply IH.
    apply elem_of_cons in Hin as [Hin|Hin]; [done | exact Hin].
Qed.

Ltac simpl_world :=
  cbn [w_heap w_proxy styleCache scriptCache embedHTMLCache texts executions
       next_pid idle follows reactions timers trace
       set_heap set_proxy set_styleCache set_scriptCache set_embedHTMLCache
       set_texts set_executions set_next_pid set_idle set_follows set_reactions
       set_timers set_trace fst snd it_fetch it_src it_opts it_content app].

Ltac clash H1 H2 :=
  first [ congruence
        | pose proof (eq_trans (eq_sym H1) H2); first [discriminate | congruence] ].

Section Content.
Context `{Host}.

(** When the network answers the request [p], a content that follows [p]
    and was pending has the outcome of [p]. *)
Lemma settle_content (p c : pid) (o : pstate string) (w : world) :
  (p, c) ∈ follows w ->
  texts w !! p = Some Pending ->
  texts w !! c = Some Pending ->
  texts (settle p o w) !! c = Some o.
Proof.
  intros Hin Hp Hc. unfold settle. rewrite Hp. cbn.
  apply settle_followers.
  - destruct (decide (c = p)) as [->|Hne]; [right; apply lookup_insert_eq|].
    left. by rewrite lookup_insert_ne.
  - apply list_elem_of_fmap. exists (p, c). split; [reflexivity|].
    by apply list_elem_of_filter.
Qed.

(** X11. The content of the handle of an async descriptor settles as the
    cached promise of its location does. Let the location be none of the
    names every object inherits. After the handle was made (with nothing
    else waiting in the idle queue) and the idle callback ran, the script
    cache holds a promise for the location; if that promise is pending,
    the content gets its outcome when the network answers; if the
    location was cached and settled before, the content is settled with
    that outcome as soon as the idle callback has run. *)
Theorem async_content_settles (f : fetcher) (o : script_obj) (out : pstate string)
    (w : world) :
  let c := next_pid w in
  let w2 := (run_idle (externalScript f (SObj o) w).2).2 in
  async o = true ->
  inherited (src o) = false ->
  idle w = [] ->
  (forall p, scriptCache w !! src o = Some p -> p < next_pid w) ->
  exists p,
    scriptCache w2 !! src o = Some p
    /\ (texts w2 !! p = Some Pending -> texts (settle p out w2) !! c = Some out)
    /\ (scriptCache w !! src o = Some p ->
        forall o', texts w !! p = Some o' -> settled o' -> texts w2 !! c = Some o').
Proof.
  intros c w2 Ha _ Hidle Hold.
  assert (H1 : (externalScript f (SObj o) w).2
    = set_idle [IdleTask f (src o) (Opts (crossOrigin o)) c]
        (set_next_pid (S c) (set_texts (<[c := Pending]> (texts w)) w))).
  { cbn [externalScript]. rewrite Ha. cbn. rewrite Hidle. reflexivity. }
  subst w2. rewrite H1. clear H1.
  unfold run_idle, bind, fetchScript, fetch_text, bind, emit, new_text_promise,
    modify, ret.
  simpl_world.
  destruct (scriptCache w !! src o) as [p|] eqn:Hc; simpl_world.
  - specialize (Hold p eq_refl). fold c in Hold |- *.
    assert (Hpc : c <> p) by lia.
    exists p. rewrite (lookup_insert_ne _ c p) by done. unfold pid in *.
    match goal with
    | |- context [match ?x with Some _ => _ | None => _ end] =>
        destruct x as [[|t|e|t]|] eqn:Htp
    end; simpl_world.
    + split; [exact Hc|]. split.
      * intros _. apply settle_content; simpl_world.
        -- apply elem_of_app. right. by apply list_elem_of_singleton.
        -- by rewrite lookup_insert_ne.
        -- apply lookup_insert_eq.
      * intros _ o' Ho' Hs.
        assert (Heq : Some o' = Some Pending)
          by (first [congruence | exact (eq_trans (eq_sym Ho') Htp)]).
        injection Heq as ->. destruct Hs.
    + split; [exact Hc|]. split.
      * rewrite settle_one_other, lookup_insert_ne by done.
        intros Hp. clash Htp Hp.
      * intros _ o' Ho' _.
        assert (Heq : o' = _) by (first [by injection Ho'
                                        | by injection (eq_trans (eq_sym Ho') Htp)]).
        rewrite Heq. apply settle_one_here. left. apply lookup_insert_eq.
    + split; [exact Hc|]. split.
      * rewrite settle_one_other, lookup_insert_ne by done.
        intros Hp. clash Htp Hp.
      * intros _ o' Ho' _.
        assert (Heq : o' = _) by (first [by injection Ho'
                                        | by injection (eq_trans (eq_sym Ho') Htp)]).
        rewrite Heq. apply settle_one_here. left. apply lookup_insert_eq.
    + split; [exact Hc|]. split.
      * rewrite lookup_insert_ne by done. intros Hp. clash Htp Hp.
      * intros _ o' Ho' Hs.
        assert (Heq : Some o' = Some (Following t))
          by (first [congruence | exact (eq_trans (eq_sym Ho') Htp)]).
        injection Heq as ->. destruct Hs.
    + split; [exact Hc|]. split; [|intros _ o' Ho'; clash Htp Ho'].
      rewrite lookup_insert_ne by done. intros Hp. clash Htp Hp.
  - exists (S c). fold c. rewrite lookup_insert_eq. simpl_world.
    split; [apply lookup_insert_eq|]. split; [|discriminate].
    intros _. apply settle_content; simpl_world.
    + apply elem_of_app. right. by apply list_elem_of_singleton.
    + apply lookup_insert_eq.
    + rewrite lookup_insert_ne by lia. apply lookup_insert_eq.
Qed.

End Content.

(** ** More runs on the demo host *)

(** The inline style keeps its markup, the remote one is wrapped. *)
Lemma getEmbedHTML_then_blocks_witness :
  getEmbedHTML_then
    (join (map genLinkReplaceSymbol two_styles) +:+ "<div></div>") two_styles two_sheets
  = join (style_blocks 0 two_styles two_sheets) +:+ "<div></div>"
  /\ join (style_blocks 0 two_styles two_sheets) +:+ "<div></div>"
     = "<style>.a{}</style><style>/* http://x/y.css */b{color:red}</style><div></div>".
Proof.
  split; [|reflexivity].
  apply (getEmbedHTML_then_blocks two_styles two_sheets "<div></div>");
    vm_compute; reflexivity.
Defined.

(** A config with scripts only. *)
Lemma importEntry_template_layout_witness :
  exists styleSheets w',
    importEntry (EntryConfig (Config (Arr app_scripts) Absent (Some "<main/>")))
      None None demo_world
    = (Ok (Embedding
             "<main/><!-- script http://x/a.js --><!-- script http://x/app.js -->"
             [] app_scripts styleSheets), w').
Proof.
  destruct (importEntry_template_layout (Some app_scripts) None (Some "<main/>")
              None None demo_world) as (styleSheets & w' & Hrun & _).
  - left. eexists. reflexivity.
  - exists styleSheets, w'. exact Hrun.
Defined.

(** The entry names a script that is not in the list. *)
Lemma unmatched_entry_never_settles_witness :
  executions
    (execScripts_then (VStr "http://x/none.js") abc_scripts (Sandbox 1) no_opts
       abc_texts demo_world).2 !! 1 = Some Pending.
Proof.
  apply (unmatched_entry_never_settles (VStr "http://x/none.js") abc_scripts
           (Sandbox 1) no_opts abc_texts demo_world []).
  - reflexivity.
  - repeat constructor.
  - reflexivity.
  - intros Hin. repeat (apply elem_of_cons in Hin as [Hin|Hin]; [discriminate|]).
    inversion Hin.
Defined.

(** The entry [app.js] runs and the callback is called: the promise stays
    pending. *)
Lemma success_replaces_resolve_witness :
  executions
    (execScripts_then (VStr "http://x/app.js") app_scripts (Sandbox 1) success_opts
       app_texts demo_world).2 !! next_pid demo_world
  = match (schedule (VStr "http://x/app.js") app_scripts (Sandbox 1) success_opts
             app_texts 0
             (resolvePromise success_opts (resolve (next_pid demo_world)))
             (pending_promise demo_world)).1 with
    | Ok _ => Some Pending
    | Throw e => Some (Rejected e)
    end.
Proof. apply success_replaces_resolve. eexists. reflexivity. Defined.

(** The async descriptor [lazy.js] is the entry. *)
Lemma object_entry_is_fatal_witness :
  exists e w',
    schedule (VObj 7) lazy_scripts (Sandbox 1) no_opts lazy_texts 0
      (resolvePromise no_opts (resolve 2)) lazy_world = (Throw e, w')
    /\ e = TypeError "code.startsWith is not a function".
Proof.
  destruct (object_entry_is_fatal (VObj 7) lazy_scripts (Sandbox 1) no_opts lazy_texts
              lazy_script 0 (resolvePromise no_opts (resolve 2)) lazy_world)
    as (e & w' & Hrun & Herr & _).
  - reflexivity.
  - reflexivity.
  - exists e, w'. split; [exact Hrun | by apply Herr].
Defined.

(** The handle of [lazy.js] in a fresh process: the idle callback makes the
    request, and the answer of the network settles the content. *)
Lemma async_content_settles_witness :
  exists p,
    scriptCache (run_idle (externalScript defaultFetch (SObj lazy_script) demo_world).2).2
      !! "http://x/lazy.js" = Some p
    /\ (texts (run_idle (externalScript defaultFetch (SObj lazy_script) demo_world).2).2
          !! p = Some Pending ->
        texts (settle p (Fulfilled "lazy()")
                 (run_idle (externalScript defaultFetch (SObj lazy_script) demo_world).2).2)
          !! next_pid demo_world = Some (Fulfilled "lazy()")).
Proof.
  destruct (async_content_settles defaultFetch lazy_script (Fulfilled "lazy()") demo_world)
    as (p & Hc & Hsettle & _).
  - reflexivity.
  - vm_compute. reflexivity.
  - reflexivity.
  - intros p Hp. vm_compute in Hp. discriminate.
  - exists p. split; [exact Hc | exact Hsettle].
Defined.

(** Inline code, a remote script and an async one, in a fresh process. *)
Lemma getExternalScripts_answers_witness :
  exists ms,
    (getExternalScripts mixed_scripts defaultFetch demo_world).1 = Ok ms
    /\ length ms = length mixed_scripts
    /\ Forall2 (script_answer defaultFetch
                  (getExternalScripts mixed_scripts defaultFetch demo_world).2)
         mixed_scripts ms.
Proof.
  apply getExternalScripts_answers.
  repeat constructor.
Defined.
